(** * mediaflow_proxy: the URL generation endpoints and the API-key gate

    A shallow embedding of [mediaflow_proxy/main.py]: the credential check
    [verify_api_key], the single-URL endpoints [generate_url] and
    [generate_encrypted_or_encoded_url], and the batch endpoint
    [generate_urls] with its inner coroutine [_process_url_item]; further
    down, the path middlewares [NormalizePathMiddleware],
    [redirect_double_slash], [log_path] and [force_fix_double_slash_path].

    Python dictionaries are mutable objects that the endpoints copy, update
    and hand on by reference, so they live in a store and the request
    records hold references to them.  Exceptions and the store are threaded
    through a small state-and-error monad. *)

From Stdlib Require Import ZArith NArith Lia.
From Stdlib Require Import Strings.Byte Strings.Ascii.
From stdpp Require Import base option list strings gmap fin_maps.
From Equations Require Import Equations.

Local Open Scope string_scope.
Local Open Scope list_scope.
Local Open Scope nat_scope.
Local Open Scope stdpp_scope.

(** ** Values, exceptions and the object store *)

(** Exceptions that can leave a handler.  [HTTPException] is the one
    [main.py] raises itself, [KeyError] comes from subscripting a dict, and
    [Raised] stands for whatever a callee raises. *)
Inductive exception :=
| HTTPException (status_code : Z) (detail : string)
| KeyError (key : string)
| Raised (message : string).

#[global] Instance exception_eq_dec : EqDecision exception.
Proof. solve_decision. Defined.

(** Python truthiness of an [Optional[str]]: [None] and the empty string
    are falsy. *)
Definition truthy (o : option string) : bool :=
  match o with
  | Some s => bool_decide (s ≠ "")
  | None => false
  end.

(** References to dict objects. *)
Abbreviation loc := positive (only parsing).
Abbreviation dict := (gmap string string) (only parsing).

(** The store: the dict objects that are alive, and the state of everything
    else a callee may consult or change (entropy source, clock). *)
Record World (Ext : Type) := mkWorld {
  heap : gmap loc dict;
  ext : Ext
}.
Arguments mkWorld {Ext} _ _.
Arguments heap {Ext} _.
Arguments ext {Ext} _.

Definition set_heap {Ext} (h : gmap loc dict) (w : World Ext) : World Ext :=
  mkWorld h (ext w).

(** The contents of the dict behind a reference. *)
Definition deref {Ext} (w : World Ext) (l : loc) : dict :=
  default ∅ (heap w !! l).

(** ** The monad of handlers: a store and an exception or a result *)

Abbreviation M Ext A := (World Ext → (exception + A) * World Ext) (only parsing).

Definition ret {Ext A} (a : A) : M Ext A := λ w, (inr a, w).

Definition raise {Ext A} (e : exception) : M Ext A := λ w, (inl e, w).

Definition bind {Ext A B} (m : M Ext A) (k : A → M Ext B) : M Ext B :=
  λ w, match m w with
       | (inr a, w') => k a w'
       | (inl e, w') => (inl e, w')
       end.

Declare Scope py_scope.
Delimit Scope py_scope with py.
Notation "x ⇐ m ;; k" := (bind m (λ x, k))
  (at level 100, m at next level, right associativity) : py_scope.
Notation "m ;;; k" := (bind m (λ _, k))
  (at level 100, right associativity) : py_scope.
Local Open Scope py_scope.

(** [d.copy()]: a new dict object with the same items. *)
Definition dict_copy {Ext} (l : loc) : M Ext loc :=
  λ w, let l' := fresh (dom (heap w)) in
       (inr l', set_heap (<[l' := deref w l]> (heap w)) w).

(** [k in d]. *)
Definition dict_contains {Ext} (k : string) (l : loc) : M Ext bool :=
  λ w, (inr (bool_decide (is_Some (deref w l !! k))), w).

(** [d[k] = v]: in-place update of the object behind [l]. *)
Definition dict_setitem {Ext} (l : loc) (k v : string) : M Ext unit :=
  λ w, (inr tt, set_heap (<[l := <[k := v]> (deref w l)]> (heap w)) w).

(** ** Configuration and the credential check *)

Module Settings.
Record t := mk { api_password : option string }.
End Settings.

(** [verify_api_key]: [None] on success, [HTTPException(403)] otherwise.
    It touches no object, so it is a plain function into [exception + unit].
    [api_key] and [api_key_alt] are [None] when the request carries no
    credential in that channel ([auto_error=False]). *)
Definition verify_api_key (settings : Settings.t)
    (api_key api_key_alt : option string) : exception + unit :=
  if negb (truthy (Settings.api_password settings)) then inr tt
  else if bool_decide (api_key = Settings.api_password settings)
          || bool_decide (api_key_alt = Settings.api_password settings)
       then inr tt
  else inl (HTTPException 403 "Could not validate credentials").

(** ** Request shapes *)

(** A parsed address object, kept as the text [str()] gives for it. *)
Record IPvAnyAddress := mkIP { ip_text : string }.

Definition str (a : IPvAnyAddress) : string := ip_text a.

(** [EncryptionHandler(password)]: the object built from the password. *)
Record EncryptionHandler := mkEncryptionHandler { secret_key : string }.

Module GenerateUrlRequest.
Record t := mk {
    mediaflow_proxy_url : string;
    endpoint : string;
    destination_url : string;
    query_params : loc;
    request_headers : loc;
    response_headers : loc;
    expiration : option Z;
    api_password : option string;
    ip : option IPvAnyAddress;
    filename : option string
  }.
End GenerateUrlRequest.

(** One entry of a batch.  [_process_url_item] reads six attributes of it;
    [extra] holds any further keys the caller put on the entry, none of
    which is ever read. *)
Module MultiUrlRequestItem.
Record t := mk {
    endpoint : string;
    destination_url : string;
    query_params : loc;
    request_headers : loc;
    response_headers : loc;
    filename : option string;
    extra : gmap string string
  }.
End MultiUrlRequestItem.

Module GenerateMultiUrlRequest.
Record t := mk {
    mediaflow_proxy_url : string;
    api_password : option string;
    expiration : option Z;
    ip : option IPvAnyAddress;
    urls : list MultiUrlRequestItem.t
  }.
End GenerateMultiUrlRequest.

(** The keyword arguments of one call of [encode_mediaflow_proxy_url]. *)
Module EncodeArgs.
Record t := mk {
    mediaflow_proxy_url : string;
    endpoint : string;
    destination_url : string;
    query_params : loc;
    request_headers : loc;
    response_headers : loc;
    encryption_handler : option EncryptionHandler;
    expiration : option Z;
    ip : option string;
    filename : option string
  }.
End EncodeArgs.

(** Values of a JSON response body. *)
Inductive value :=
| VStr (s : string)
| VList (l : list string).

(** [body[k]]. *)
Definition getitem {Ext} (body : gmap string value) (k : string) : M Ext value :=
  match body !! k with
  | Some v => ret v
  | None => raise (KeyError k)
  end.

(** ** [asyncio.gather] over coroutines that never suspend

    Each coroutine of the batch runs to completion in list order; the
    awaiting caller then receives all results, or the exception of the first
    coroutine that raised. *)
Fixpoint run_tasks {Ext A} (tasks : list (M Ext A)) (w : World Ext)
    : list (exception + A) * World Ext :=
  match tasks with
  | [] => ([], w)
  | t :: rest =>
      let '(r, w1) := t w in
      let '(rs, w2) := run_tasks rest w1 in
      (r :: rs, w2)
  end.

Fixpoint collect {A} (rs : list (exception + A)) : exception + list A :=
  match rs with
  | [] => inr []
  | inl e :: _ => inl e
  | inr a :: rest =>
      match collect rest with
      | inl e => inl e
      | inr l => inr (a :: l)
      end
  end.

Definition gather {Ext A} (tasks : list (M Ext A)) : M Ext (list A) :=
  λ w, let '(rs, w') := run_tasks tasks w in (collect rs, w').

(** ** The endpoints *)

Section endpoints.
Context {Ext : Type}.

(** [mediaflow_proxy.utils.http_utils.encode_mediaflow_proxy_url]: it
    returns the URL or raises, and may read and update the store. *)
Variable encode_mediaflow_proxy_url : EncodeArgs.t → M Ext string.

Definition generate_url (request : GenerateUrlRequest.t)
    : M Ext (gmap string value) :=
  let encryption_handler :=
    if truthy (GenerateUrlRequest.api_password request)
    then mkEncryptionHandler <$> GenerateUrlRequest.api_password request
    else None in
  query_params ⇐ dict_copy (GenerateUrlRequest.query_params request);;
  has_key ⇐ dict_contains "api_password" query_params;;
  (if negb has_key && truthy (GenerateUrlRequest.api_password request)
   then dict_setitem query_params "api_password"
          (default "" (GenerateUrlRequest.api_password request))
   else ret tt);;;
  let ip_str := str <$> GenerateUrlRequest.ip request in
  encoded_url ⇐ encode_mediaflow_proxy_url
    (EncodeArgs.mk
       (GenerateUrlRequest.mediaflow_proxy_url request)
       (GenerateUrlRequest.endpoint request)
       (GenerateUrlRequest.destination_url request)
       query_params
       (GenerateUrlRequest.request_headers request)
       (GenerateUrlRequest.response_headers request)
       encryption_handler
       (GenerateUrlRequest.expiration request)
       ip_str
       (GenerateUrlRequest.filename request));;
  ret ({["url" := VStr encoded_url]} : gmap string value).

Definition generate_encrypted_or_encoded_url (request : GenerateUrlRequest.t)
    : M Ext (gmap string value) :=
  body ⇐ generate_url request;;
  url ⇐ getitem body "url";;
  ret ({["encoded_url" := url]} : gmap string value).

(** The inner coroutine of [generate_urls]; [request],
    [encryption_handler] and [ip_str] are the variables it closes over. *)
Definition _process_url_item (request : GenerateMultiUrlRequest.t)
    (encryption_handler : option EncryptionHandler) (ip_str : option string)
    (url_item : MultiUrlRequestItem.t) : M Ext string :=
  query_params ⇐ dict_copy (MultiUrlRequestItem.query_params url_item);;
  has_key ⇐ dict_contains "api_password" query_params;;
  (if negb has_key && truthy (GenerateMultiUrlRequest.api_password request)
   then dict_setitem query_params "api_password"
          (default "" (GenerateMultiUrlRequest.api_password request))
   else ret tt);;;
  encode_mediaflow_proxy_url
    (EncodeArgs.mk
       (GenerateMultiUrlRequest.mediaflow_proxy_url request)
       (MultiUrlRequestItem.endpoint url_item)
       (MultiUrlRequestItem.destination_url url_item)
       query_params
       (MultiUrlRequestItem.request_headers url_item)
       (MultiUrlRequestItem.response_headers url_item)
       encryption_handler
       (GenerateMultiUrlRequest.expiration request)
       ip_str
       (MultiUrlRequestItem.filename url_item)).

Definition generate_urls (request : GenerateMultiUrlRequest.t)
    : M Ext (gmap string value) :=
  let encryption_handler :=
    if truthy (GenerateMultiUrlRequest.api_password request)
    then mkEncryptionHandler <$> GenerateMultiUrlRequest.api_password request
    else None in
  let ip_str := str <$> GenerateMultiUrlRequest.ip request in
  let tasks := map (_process_url_item request encryption_handler ip_str)
                   (GenerateMultiUrlRequest.urls request) in
  encoded_urls ⇐ gather tasks;;
  ret ({["urls" := VList encoded_urls]} : gmap string value).

End endpoints.

(** ** What the endpoints hand to the encoder *)

(** The query parameters after the merge with the shared password. *)
Definition inject_api_password (api_password : option string) (d : dict) : dict :=
  if bool_decide (is_Some (d !! "api_password")) then d
  else if truthy api_password then <["api_password" := default "" api_password]> d
  else d.

(** The store in which the encoder is called: the copy of the dict behind
    [l], merged with the password, sits at a fresh reference. *)
Definition prepared {Ext} (api_password : option string) (l : loc)
    (w : World Ext) : loc * World Ext :=
  let l' := fresh (dom (heap w)) in
  (l', set_heap (<[l' := inject_api_password api_password (deref w l)]> (heap w)) w).

(** The shared handler of a request. *)
Definition handler_of (api_password : option string) : option EncryptionHandler :=
  if truthy api_password then mkEncryptionHandler <$> api_password else None.

Definition single_args (request : GenerateUrlRequest.t) (qp : loc) : EncodeArgs.t :=
  EncodeArgs.mk
    (GenerateUrlRequest.mediaflow_proxy_url request)
    (GenerateUrlRequest.endpoint request)
    (GenerateUrlRequest.destination_url request)
    qp
    (GenerateUrlRequest.request_headers request)
    (GenerateUrlRequest.response_headers request)
    (handler_of (GenerateUrlRequest.api_password request))
    (GenerateUrlRequest.expiration request)
    (str <$> GenerateUrlRequest.ip request)
    (GenerateUrlRequest.filename request).

Definition item_args (request : GenerateMultiUrlRequest.t)
    (encryption_handler : option EncryptionHandler) (ip_str : option string)
    (url_item : MultiUrlRequestItem.t) (qp : loc) : EncodeArgs.t :=
  EncodeArgs.mk
    (GenerateMultiUrlRequest.mediaflow_proxy_url request)
    (MultiUrlRequestItem.endpoint url_item)
    (MultiUrlRequestItem.destination_url url_item)
    qp
    (MultiUrlRequestItem.request_headers url_item)
    (MultiUrlRequestItem.response_headers url_item)
    encryption_handler
    (GenerateMultiUrlRequest.expiration request)
    ip_str
    (MultiUrlRequestItem.filename url_item).

(** The coroutine [generate_urls] creates for one entry. *)
Definition item_task {Ext} (enc : EncodeArgs.t → M Ext string)
    (request : GenerateMultiUrlRequest.t) (url_item : MultiUrlRequestItem.t)
    : M Ext string :=
  _process_url_item enc request
    (handler_of (GenerateMultiUrlRequest.api_password request))
    (str <$> GenerateMultiUrlRequest.ip request) url_item.

(** The coroutines of a batch and the store each of them starts in. *)
Definition batch_tasks {Ext} (enc : EncodeArgs.t → M Ext string)
    (request : GenerateMultiUrlRequest.t) : list (M Ext string) :=
  map (item_task enc request) (GenerateMultiUrlRequest.urls request).

Definition world_before {Ext A} (tasks : list (M Ext A)) (i : nat)
    (w : World Ext) : World Ext :=
  (run_tasks (take i tasks) w).2.

(** The merge rule for the reserved key, as a relation between the caller's
    query parameters and the ones the encoder receives. *)
Definition password_merged (api_password : option string)
    (before after : dict) : Prop :=
  (∀ p, api_password = Some p → p ≠ "" → before !! "api_password" = None →
     after = <["api_password" := p]> before)
  ∧ (api_password = None ∨ api_password = Some ""
       ∨ is_Some (before !! "api_password") → after = before)
  ∧ (∀ v, before !! "api_password" = Some v → after !! "api_password" = Some v).

(** An encoder that changes no live dict except the three it was handed. *)
Definition encoder_frame {Ext} (enc : EncodeArgs.t → M Ext string) : Prop :=
  ∀ args w l,
    is_Some (heap w !! l) →
    l ≠ EncodeArgs.query_params args →
    l ≠ EncodeArgs.request_headers args →
    l ≠ EncodeArgs.response_headers args →
    heap (enc args w).2 !! l = heap w !! l.

(** * The token codec

    [encode_mediaflow_proxy_url] and the [EncryptionHandler] class live in
    modules of the repository other than [main.py]; what follows is their
    contract as the specification words it. *)

(** Modelled from the spec: the TokenPayload of section 3, the unit a token
    carries.  The three mappings have unique keys and no order. *)
Module TokenPayload.
Record t := mk {
  destination_url : string;
  endpoint : string;
  query_params : gmap string string;
  request_headers : gmap string string;
  response_headers : gmap string string;
  expiration : option Z;
  ip : option string;
  filename : option string;
  api_password : option string
}.
End TokenPayload.

(** Modelled from the spec: the two failures of decoding (section 4.1). *)
Inductive codec_error := Malformed | AuthenticationFailed.

#[global] Instance byte_eq_dec : EqDecision byte := Byte.byte_eq_dec.

Definition byte_of_N (n : N) : byte := default "000"%byte (Byte.of_N n).

Abbreviation parser A := (list byte → option (A * list byte)) (only parsing).

(** ** Canonical serialization

    Modelled from the spec: the "canonical, deterministically ordered
    compact byte representation" of section 4.1, whose layout the spec
    leaves open.  Fields are written in the order of the record; a number is
    a little-endian base-128 varint, a string is its length and its bytes,
    an optional field is a presence byte and the field, a mapping is its
    size and its entries in the order of the keys. *)

Fixpoint put_varint_fuel (fuel : nat) (n : N) : list byte :=
  if (n <? 128)%N then [byte_of_N n]
  else match fuel with
       | O => []
       | S fuel' => byte_of_N (128 + n mod 128) :: put_varint_fuel fuel' (n / 128)
       end.

Definition put_varint (n : N) : list byte :=
  put_varint_fuel (N.to_nat (N.size n)) n.

Fixpoint get_varint (bs : list byte) : option (N * list byte) :=
  match bs with
  | [] => None
  | b :: rest =>
      if (Byte.to_N b <? 128)%N then Some (Byte.to_N b, rest)
      else match get_varint rest with
           | Some (hi, rest') => Some ((Byte.to_N b - 128 + 128 * hi)%N, rest')
           | None => None
           end
  end.

Definition put_bytes (bs : list byte) : list byte :=
  put_varint (N.of_nat (length bs)) ++ bs.

Definition get_bytes : parser (list byte) := λ bs,
  '(n, rest) ← get_varint bs;
  if decide (N.to_nat n ≤ length rest)
  then Some (take (N.to_nat n) rest, drop (N.to_nat n) rest)
  else None.

Definition put_string (s : string) : list byte :=
  put_bytes (String.list_byte_of_string s).

Definition get_string : parser string := λ bs,
  '(b, rest) ← get_bytes bs; Some (String.string_of_list_byte b, rest).

Definition put_Z (z : Z) : list byte :=
  (if (z <? 0)%Z then "001"%byte else "000"%byte) :: put_varint (Z.abs_N z).

Definition get_Z : parser Z := λ bs,
  match bs with
  | [] => None
  | sign :: rest =>
      '(n, rest') ← get_varint rest;
      if decide (sign = "000"%byte) then Some (Z.of_N n, rest')
      else if decide (sign = "001"%byte) then Some ((- Z.of_N n)%Z, rest')
      else None
  end.

Definition put_option {A} (put : A → list byte) (o : option A) : list byte :=
  match o with
  | None => ["000"%byte]
  | Some a => "001"%byte :: put a
  end.

Definition get_option {A} (get : parser A) : parser (option A) := λ bs,
  match bs with
  | [] => None
  | tag :: rest =>
      if decide (tag = "000"%byte) then Some (None, rest)
      else if decide (tag = "001"%byte)
           then '(a, rest') ← get rest; Some (Some a, rest')
      else None
  end.

Definition put_entry (kv : string * string) : list byte :=
  put_string kv.1 ++ put_string kv.2.

Definition get_entry : parser (string * string) := λ bs,
  '(k, rest) ← get_string bs;
  '(v, rest') ← get_string rest;
  Some ((k, v), rest').

Fixpoint get_many {A} (get : parser A) (n : nat) : parser (list A) := λ bs,
  match n with
  | O => Some ([], bs)
  | S n' =>
      '(a, rest) ← get bs;
      '(l, rest') ← get_many get n' rest;
      Some (a :: l, rest')
  end.

Definition put_dict (d : gmap string string) : list byte :=
  put_varint (N.of_nat (length (map_to_list d)))
  ++ concat (put_entry <$> map_to_list d).

Definition get_dict : parser (gmap string string) := λ bs,
  '(n, rest) ← get_varint bs;
  '(l, rest') ← get_many get_entry (N.to_nat n) rest;
  Some (list_to_map l, rest').

Definition serialize (p : TokenPayload.t) : list byte :=
  put_string (TokenPayload.destination_url p)
  ++ put_string (TokenPayload.endpoint p)
  ++ put_dict (TokenPayload.query_params p)
  ++ put_dict (TokenPayload.request_headers p)
  ++ put_dict (TokenPayload.response_headers p)
  ++ put_option put_Z (TokenPayload.expiration p)
  ++ put_option put_string (TokenPayload.ip p)
  ++ put_option put_string (TokenPayload.filename p)
  ++ put_option put_string (TokenPayload.api_password p).

(** Parsing consumes the whole input. *)
Definition parse (bs : list byte) : option TokenPayload.t :=
  '(destination_url, r1) ← get_string bs;
  '(endpoint, r2) ← get_string r1;
  '(query_params, r3) ← get_dict r2;
  '(request_headers, r4) ← get_dict r3;
  '(response_headers, r5) ← get_dict r4;
  '(expiration, r6) ← get_option get_Z r5;
  '(ip, r7) ← get_option get_string r6;
  '(filename, r8) ← get_option get_string r7;
  '(api_password, r9) ← get_option get_string r8;
  match r9 with
  | [] => Some (TokenPayload.mk destination_url endpoint query_params
                  request_headers response_headers expiration ip filename
                  api_password)
  | _ :: _ => None
  end.

(** What a put-and-get pair must satisfy: reading what was written gives
    the value back and leaves the rest of the input. *)
Definition reads_back {A} (put : A → list byte) (get : parser A) : Prop :=
  ∀ a rest, get (put a ++ rest) = Some (a, rest).

(** ** base64url, without padding

    Modelled from the spec: "base64url-encode the bytes" (section 4.1), the
    URL-safe alphabet of RFC 4648. *)

Definition alphabet : list byte :=
  String.list_byte_of_string
    "ABCDEFGHIJKLMNOPQRSTUVWXYZabcdefghijklmnopqrstuvwxyz0123456789-_".

Definition char_of_sextet (s : N) : byte :=
  nth (N.to_nat s) alphabet "A"%byte.

Definition sextet_of_char (c : byte) : option N :=
  (λ p : nat * byte, N.of_nat p.1) <$> list_find (λ x, x = c) alphabet.

Fixpoint sextets_of_bytes (bs : list byte) : list N :=
  match bs with
  | [] => []
  | [b0] =>
      let n := (Byte.to_N b0 * 16)%N in
      [n / 64; n mod 64]%N
  | [b0; b1] =>
      let n := ((Byte.to_N b0 * 256 + Byte.to_N b1) * 4)%N in
      [n / 4096; (n / 64) mod 64; n mod 64]%N
  | b0 :: b1 :: b2 :: rest =>
      let n := ((Byte.to_N b0 * 256 + Byte.to_N b1) * 256 + Byte.to_N b2)%N in
      ([n / 262144; (n / 4096) mod 64; (n / 64) mod 64; n mod 64]%N
       ++ sextets_of_bytes rest)%list
  end.

Fixpoint bytes_of_sextets (ss : list N) : option (list byte) :=
  match ss with
  | [] => Some []
  | [_] => None
  | [s0; s1] =>
      let n := (s0 * 64 + s1)%N in
      Some [byte_of_N (n / 16)]
  | [s0; s1; s2] =>
      let n := ((s0 * 64 + s1) * 64 + s2)%N in
      Some [byte_of_N (n / 1024); byte_of_N ((n / 4) mod 256)]
  | s0 :: s1 :: s2 :: s3 :: rest =>
      let n := (((s0 * 64 + s1) * 64 + s2) * 64 + s3)%N in
      tl ← bytes_of_sextets rest;
      Some (byte_of_N (n / 65536) :: byte_of_N ((n / 256) mod 256)
              :: byte_of_N (n mod 256) :: tl)
  end.

Fixpoint sextets_of_chars (cs : list byte) : option (list N) :=
  match cs with
  | [] => Some []
  | c :: rest =>
      s ← sextet_of_char c;
      ss ← sextets_of_chars rest;
      Some (s :: ss)
  end.

Definition base64url_encode (bs : list byte) : string :=
  String.string_of_list_byte (char_of_sextet <$> sextets_of_bytes bs).

Definition base64url_decode (token : string) : option (list byte) :=
  ss ← sextets_of_chars (String.list_byte_of_string token);
  bytes_of_sextets ss.

(** ** The encryption handler

    Modelled from the spec: section 4.2.  The key depends on the password
    alone; [encrypt] draws a nonce and returns nonce ‖ ciphertext ‖ tag;
    [decrypt] fails with [AuthenticationFailed] when the tag does not
    verify.  The key derivation, the keystream and the tag function are the
    primitives of whichever AEAD is used. *)

Definition NONCE_LEN : nat := 12.
Definition TAG_LEN : nat := 16.

(** The entropy source: bytes yet to be drawn. *)
Record Entropy := mkEntropy { tape : nat → byte; cursor : nat }.

Definition draw (n : nat) (e : Entropy) : list byte * Entropy :=
  (tape e <$> seq (cursor e) n, mkEntropy (tape e) (cursor e + n)).

Definition byte_xor (a b : byte) : byte :=
  byte_of_N (N.lxor (Byte.to_N a) (Byte.to_N b)).

Section codec.
Context {Key : Type}.
Variable derive_key : string → Key.
Variable keystream : Key → list byte → nat → byte.
Variable mac : Key → list byte → list byte.

Definition xor_stream (k : Key) (nonce data : list byte) : list byte :=
  imap (λ i b, byte_xor b (keystream k nonce i)) data.

Definition encrypt (h : EncryptionHandler) (plaintext : list byte)
    (e : Entropy) : list byte * Entropy :=
  let k := derive_key (secret_key h) in
  let '(nonce, e') := draw NONCE_LEN e in
  let ciphertext := xor_stream k nonce plaintext in
  (nonce ++ ciphertext ++ mac k (nonce ++ ciphertext), e').

Definition decrypt (h : EncryptionHandler) (blob : list byte)
    : codec_error + list byte :=
  let k := derive_key (secret_key h) in
  if decide (length blob < NONCE_LEN + TAG_LEN) then inl AuthenticationFailed
  else
    let nonce := take NONCE_LEN blob in
    let body := drop NONCE_LEN blob in
    let ciphertext := take (length body - TAG_LEN) body in
    let tag := drop (length body - TAG_LEN) body in
    if decide (tag = mac k (nonce ++ ciphertext))
    then inr (xor_stream k nonce ciphertext)
    else inl AuthenticationFailed.

(** Modelled from the spec: [encode(payload, password?) -> token] and
    [decode(token, password?) -> payload] of section 4.1. *)
Definition encode (payload : TokenPayload.t) (password : option string)
    (e : Entropy) : string * Entropy :=
  let bytes := serialize payload in
  match password with
  | None => (base64url_encode bytes, e)
  | Some pw =>
      let '(blob, e') := encrypt (mkEncryptionHandler pw) bytes e in
      (base64url_encode blob, e')
  end.

Definition parse_payload (bs : list byte) : codec_error + TokenPayload.t :=
  match parse bs with
  | Some p => inr p
  | None => inl Malformed
  end.

Definition decode (token : string) (password : option string)
    : codec_error + TokenPayload.t :=
  match base64url_decode token with
  | None => inl Malformed
  | Some blob =>
      match password with
      | None => parse_payload blob
      | Some pw =>
          match decrypt (mkEncryptionHandler pw) blob with
          | inl err => inl err
          | inr plaintext => parse_payload plaintext
          end
      end
  end.

End codec.

(** * The path middlewares

    [NormalizePathMiddleware], [redirect_double_slash], [log_path] and
    [force_fix_double_slash_path] of [main.py], with the string operations
    of Python they are written with. *)

(** ** Python string operations *)

Definition is_slash (c : ascii) : bool := bool_decide (c = "/"%char).

(** [s.lstrip("/")] and the length of the run of slashes it removes. *)
Fixpoint lstrip_slashes (s : string) : string :=
  match s with
  | String c rest => if is_slash c then lstrip_slashes rest else s
  | "" => s
  end.

Fixpoint count_slashes (s : string) : nat :=
  match s with
  | String c rest => if is_slash c then S (count_slashes rest) else 0
  | "" => 0
  end.

(** [re.sub(r"/{2,}", "/", s)]: scanning from the left, at a position where
    two or more slashes start, the whole run (the match is greedy) is
    replaced by one slash and the scan goes on behind the run; at any other
    position the character is copied. *)
Equations? re_sub_slash_runs (s : string) : string by wf (String.length s) lt :=
  re_sub_slash_runs "" := "";
  re_sub_slash_runs (String c rest)
    with decide (2 ≤ count_slashes (String c rest)) => {
    | left _ := String "/" (re_sub_slash_runs (lstrip_slashes (String c rest)));
    | right _ := String c (re_sub_slash_runs rest) }.
Proof.
  assert (∀ s, String.length (lstrip_slashes s) + count_slashes s
               = String.length s) as Hlen.
  { clear. induction s as [|c s IH]; [done|].
    simpl. destruct (is_slash c); simpl; lia. }
  specialize (Hlen (String c rest)). simpl in *. lia.
Qed.

(** The same substitution one character at a time: a slash that another
    slash follows is dropped. *)
Fixpoint squeeze_slashes (s : string) : string :=
  match s with
  | "" => ""
  | String c rest =>
      if is_slash c && bool_decide (1 ≤ count_slashes rest)
      then squeeze_slashes rest
      else String c (squeeze_slashes rest)
  end.

(** [re.sub(r"^/+", "/", s)]: the pattern can only match at the start, where
    a run of one or more slashes is replaced by one slash. *)
Definition re_sub_leading_slashes (s : string) : string :=
  if decide (1 ≤ count_slashes s) then String "/" (lstrip_slashes s) else s.

(** [sub in s]. *)
Fixpoint str_contains (sub s : string) : bool :=
  String.prefix sub s
  || match s with
     | String _ rest => str_contains sub rest
     | "" => false
     end.

(** [s[n:]]. *)
Fixpoint string_drop (n : nat) (s : string) : string :=
  match n, s with
  | S n', String _ rest => string_drop n' rest
  | _, _ => s
  end.

(** [s.replace(old, new)] for a non-empty [old], given as its first
    character and the rest: every occurrence found scanning from the left
    is replaced, and the scan goes on behind the occurrence. *)
Equations? replace_nonempty (o : ascii) (old new s : string) : string
    by wf (String.length s) lt :=
  replace_nonempty o old new "" := "";
  replace_nonempty o old new (String c rest)
    with String.prefix (String o old) (String c rest) => {
    | true := new +:+ replace_nonempty o old new
                        (string_drop (String.length old) rest);
    | false := String c (replace_nonempty o old new rest) }.
Proof.
  assert (∀ n s, String.length (string_drop n s) ≤ String.length s) as Hlen.
  { clear. induction n as [|n IH]; intros [|c s]; simpl; try lia.
    specialize (IH s). lia. }
  specialize (Hlen (String.length old) rest). lia.
Qed.

(** [s.replace("", new)] puts [new] before every character and at the end. *)
Fixpoint replace_empty (new s : string) : string :=
  match s with
  | "" => new
  | String c rest => new +:+ String c (replace_empty new rest)
  end.

Definition str_replace (old new s : string) : string :=
  match old with
  | "" => replace_empty new s
  | String o old' => replace_nonempty o old' new s
  end.

(** The non-empty components of [s.split("/")]; the middlewares do not
    compute them, the properties of the normalized path are stated with
    them. *)
Fixpoint segments (s : string) : list string :=
  match s with
  | "" => []
  | String c rest =>
      if is_slash c then segments rest
      else if bool_decide (1 ≤ count_slashes rest)
           then String c "" :: segments rest
      else match segments rest with
           | seg :: more => String c seg :: more
           | [] => [String c ""]
           end
  end.

(** ** Requests, URLs and responses *)

(** A Starlette request: its ASGI scope, a dict object, and its receive
    channel. *)
Module Request.
Record t := mk { scope : loc; receive : nat }.
End Request.

(** [request.url], read through two of its views: [.path] and [str()]. *)
Module URL.
Record t := mk { path : string; text : string }.
End URL.

Inductive Response :=
| RedirectResponse (url : string) (status_code : Z)
| Served (status_code : Z) (body : string).

(** [d[k]] on a dict object. *)
Definition dict_getitem {Ext} (l : loc) (k : string) : M Ext string :=
  λ w, match deref w l !! k with
       | Some v => (inr v, w)
       | None => (inl (KeyError k), w)
       end.

Module NormalizePathMiddleware.
Definition dispatch {Ext} (request : Request.t)
    (call_next : Request.t → M Ext Response) : M Ext Response :=
  scope ⇐ dict_copy (Request.scope request);;
  original_path ⇐ dict_getitem scope "path";;
  let normalized_path := re_sub_slash_runs original_path in
  if bool_decide (original_path ≠ normalized_path)
  then (dict_setitem scope "path" normalized_path;;;
        call_next (Request.mk scope (Request.receive request)))
  else call_next request.
End NormalizePathMiddleware.

Section middlewares.
Context {Ext : Type}.

(** Starlette builds [request.url] from the request's scope; reading it
    changes no dict. *)
Variable request_url : Request.t → World Ext → URL.t.

(** [print]: whatever writing to standard output does. *)
Variable print : string → M Ext unit.

Definition get_url (request : Request.t) : M Ext URL.t :=
  λ w, (inr (request_url request w), w).

Definition redirect_double_slash (request : Request.t)
    (call_next : Request.t → M Ext Response) : M Ext Response :=
  url ⇐ get_url request;;
  let path := URL.path url in
  if str_contains "//" path
  then
    let new_path := re_sub_slash_runs path in
    let new_url := str_replace path new_path (URL.text url) in
    ret (RedirectResponse new_url 307)
  else call_next request.

Definition log_path (request : Request.t)
    (call_next : Request.t → M Ext Response) : M Ext Response :=
  url ⇐ get_url request;;
  print ("Incoming path: " +:+ URL.path url);;;
  response ⇐ call_next request;;
  ret response.

Definition force_fix_double_slash_path (request : Request.t)
    (call_next : Request.t → M Ext Response) : M Ext Response :=
  raw_path ⇐ dict_getitem (Request.scope request) "path";;
  if String.prefix "//proxy" raw_path
  then
    let fixed_path := re_sub_leading_slashes raw_path in
    url ⇐ get_url request;;
    let fixed_url := str_replace raw_path fixed_path (URL.text url) in
    print ("Redirecting " +:+ raw_path +:+ " → " +:+ fixed_path);;;
    ret (RedirectResponse fixed_url 307)
  else call_next request.

End middlewares.

(** * Sample data

    Concrete encoders, requests, a cipher and a payload on which the
    endpoints and the codec are run. *)

(** [demo_encode] rejects an empty destination, stores the destination
    under ["d"] in the query parameters it was handed, counts its calls and
    returns a URL text that shows the handler it was given. *)
Definition demo_encode (args : EncodeArgs.t) : M nat string :=
  λ w,
    if bool_decide (EncodeArgs.destination_url args = "")
    then (inl (Raised "destination_url must not be empty"), w)
    else
      let qp := EncodeArgs.query_params args in
      (inr (EncodeArgs.mediaflow_proxy_url args +:+ EncodeArgs.endpoint args
              +:+ "?d=" +:+ EncodeArgs.destination_url args
              +:+ match EncodeArgs.encryption_handler args with
                  | Some h => "&sealed_with=" +:+ secret_key h
                  | None => ""
                  end),
       mkWorld (<[qp := <["d" := EncodeArgs.destination_url args]> (deref w qp)]>
                  (heap w))
               (S (ext w))).

(** [recording_encode] keeps the arguments of every call. *)
Definition recording_encode (args : EncodeArgs.t) : M (list EncodeArgs.t) string :=
  λ w, (inr "", mkWorld (heap w) (ext w ++ [args])).

(** A store with three dict objects and three batch entries over them. *)
Definition demo_heap : gmap loc dict :=
  <[1%positive := {["quality" := "hd"]}]>
  (<[2%positive := {["api_password" := "item-secret"]}]>
  (<[3%positive := ∅]> ∅)).

Definition demo_item (dest : string) (qp : loc) : MultiUrlRequestItem.t :=
  MultiUrlRequestItem.mk "/proxy/stream" dest qp 3%positive 3%positive None ∅.

Definition demo_batch (items : list MultiUrlRequestItem.t)
    : GenerateMultiUrlRequest.t :=
  GenerateMultiUrlRequest.mk "http://mfp" (Some "shared") (Some 100%Z)
    (Some (mkIP "1.2.3.4")) items.

Definition demo_single : GenerateUrlRequest.t :=
  GenerateUrlRequest.mk "http://mfp" "/proxy/stream" "http://a/v.mp4"
    1%positive 3%positive 3%positive (Some 100%Z) (Some "shared")
    (Some (mkIP "1.2.3.4")) None.

(** Three entries that are accepted, and a batch whose second entry has an
    empty destination. *)
Definition demo_items_ok : list MultiUrlRequestItem.t :=
  [demo_item "http://a/1" 1; demo_item "http://a/2" 2; demo_item "http://a/3" 1].

Definition demo_items_bad : list MultiUrlRequestItem.t :=
  [demo_item "http://a/1" 1; demo_item "" 2; demo_item "http://a/3" 1].

(** An entry on which the caller also put an expiration and an address. *)
Definition demo_item_extra : MultiUrlRequestItem.t :=
  MultiUrlRequestItem.mk "/proxy/stream" "http://a/1" 1 3 3 None
    (<["expiration" := "200"]> (<["ip" := "5.6.7.8"]> ∅)).

(** A stand-in cipher and a payload, to run the codec. *)
Definition demo_derive_key (pw : string) : list byte :=
  String.list_byte_of_string pw.

Definition demo_keystream (k nonce : list byte) (i : nat) : byte :=
  nth (i mod length (k ++ nonce)) (k ++ nonce) "000"%byte.

Definition demo_mac (k data : list byte) : list byte :=
  (λ i, foldr byte_xor (byte_of_N (N.of_nat i)) (k ++ data)) <$> seq 0 TAG_LEN.

Definition demo_entropy : Entropy :=
  mkEntropy (λ i, byte_of_N (N.of_nat (7 * i + 3) mod 256)) 0.

Definition demo_payload : TokenPayload.t :=
  TokenPayload.mk "http://a/v.mp4" "/proxy/stream"
    (<["quality" := "hd"]> (<["api_password" := "shared"]> ∅))
    (<["user-agent" := "vlc"]> ∅) ∅
    (Some 1762214400%Z) (Some "1.2.3.4") None (Some "shared").

(** Scopes whose paths have repeated slashes, a URL view over a scope, a
    [print] that counts its lines and a downstream application that
    answers with the path it was given. *)
Definition demo_scope_heap : gmap loc dict :=
  <[7%positive := <["path" := "/a//b"]> (<["type" := "http"]> ∅)]>
  (<[8%positive := <["path" := "//proxy//x"]> (<["type" := "http"]> ∅)]> ∅).

Definition demo_request : Request.t := Request.mk 7%positive 0.

Definition demo_proxy_request : Request.t := Request.mk 8%positive 0.

Definition demo_request_url (request : Request.t) (w : World nat) : URL.t :=
  let p := default "" (deref w (Request.scope request) !! "path") in
  URL.mk p ("http://h" +:+ p +:+ "?x=1").

Definition demo_print (line : string) : M nat unit :=
  λ w, (inr tt, mkWorld (heap w) (S (ext w))).

Definition demo_app (request : Request.t) : M nat Response :=
  λ w, (inr (Served 200 (default "" (deref w (Request.scope request) !! "path"))), w).

(** [lenient_encode] checks nothing: it builds the URL text from whatever
    destination it is given, and counts its calls. *)
Definition lenient_encode (args : EncodeArgs.t) : M nat string :=
  λ w, (inr (EncodeArgs.mediaflow_proxy_url args +:+ EncodeArgs.endpoint args
               +:+ "?d=" +:+ EncodeArgs.destination_url args),
        mkWorld (heap w) (S (ext w))).

(** An entry reduced to the six attributes [_process_url_item] reads. *)
Definition without_extra (url_item : MultiUrlRequestItem.t)
    : MultiUrlRequestItem.t :=
  MultiUrlRequestItem.mk
    (MultiUrlRequestItem.endpoint url_item)
    (MultiUrlRequestItem.destination_url url_item)
    (MultiUrlRequestItem.query_params url_item)
    (MultiUrlRequestItem.request_headers url_item)
    (MultiUrlRequestItem.response_headers url_item)
    (MultiUrlRequestItem.filename url_item)
    ∅.

(** * Properties *)

Section call_shape.
Context {Ext : Type}.
Variable enc : EncodeArgs.t → M Ext string.

Lemma deref_set_heap_insert (w : World Ext) (l : loc) (d : dict) :
  deref (set_heap (<[l := d]> (heap w)) w) l = d.
Proof. unfold deref, set_heap; simpl. by rewrite lookup_insert_eq. Qed.

Lemma generate_url_call (request : GenerateUrlRequest.t) (w : World Ext) :
  let p := prepared (GenerateUrlRequest.api_password request)
                    (GenerateUrlRequest.query_params request) w in
  generate_url enc request w
  = (encoded_url ⇐ enc (single_args request p.1);;
     ret ({["url" := VStr encoded_url]} : gmap string value)) p.2.
Proof.
  unfold generate_url, single_args, handler_of, bind, dict_copy,
    dict_contains, dict_setitem, ret, prepared, inject_api_password; simpl.
  rewrite deref_set_heap_insert.
  destruct (bool_decide (is_Some (deref w _ !! "api_password"))); simpl; [done|].
  destruct (truthy _); simpl; [|done].
  rewrite deref_set_heap_insert. unfold set_heap; simpl.
  by rewrite insert_insert_eq.
Qed.

Lemma _process_url_item_call (request : GenerateMultiUrlRequest.t)
    (h : option EncryptionHandler) (ip_str : option string)
    (url_item : MultiUrlRequestItem.t) (w : World Ext) :
  let p := prepared (GenerateMultiUrlRequest.api_password request)
                    (MultiUrlRequestItem.query_params url_item) w in
  _process_url_item enc request h ip_str url_item w
  = enc (item_args request h ip_str url_item p.1) p.2.
Proof.
  unfold _process_url_item, item_args, bind, dict_copy,
    dict_contains, dict_setitem, ret, prepared, inject_api_password; simpl.
  rewrite deref_set_heap_insert.
  destruct (bool_decide (is_Some (deref w _ !! "api_password"))); simpl; [done|].
  destruct (truthy _); simpl; [|done].
  rewrite deref_set_heap_insert. unfold set_heap; simpl.
  by rewrite insert_insert_eq.
Qed.

Lemma alias_world (request : GenerateUrlRequest.t) (w : World Ext) :
  (generate_encrypted_or_encoded_url enc request w).2
  = (generate_url enc request w).2.
Proof.
  pose proof (generate_url_call request w) as Hc. simpl in Hc.
  unfold generate_encrypted_or_encoded_url, bind.
  rewrite Hc. unfold bind.
  destruct (enc _ _) as [[e|u] w']; simpl; [done|].
  unfold getitem, ret. by rewrite lookup_singleton_eq.
Qed.

Lemma generate_urls_gather (request : GenerateMultiUrlRequest.t) :
  generate_urls enc request
  = (encoded_urls ⇐ gather (batch_tasks enc request);;
     ret ({["urls" := VList encoded_urls]} : gmap string value)).
Proof. done. Qed.

End call_shape.

(** ** [asyncio.gather] *)

Section gather.
Context {Ext A : Type}.
Implicit Types (tasks : list (M Ext A)) (w : World Ext).

Lemma world_before_0 tasks w : world_before tasks 0 w = w.
Proof. unfold world_before. by rewrite take_0. Qed.

Lemma world_before_S t tasks i w :
  world_before (t :: tasks) (S i) w = world_before tasks i (t w).2.
Proof.
  unfold world_before; simpl.
  destruct (t w) as [r w1]; simpl.
  by destruct (run_tasks (take i tasks) w1).
Qed.

Lemma gather_cons t tasks w :
  gather (t :: tasks) w
  = match (t w).1, gather tasks (t w).2 with
    | inl e, (_, w') => (inl e, w')
    | inr a, (inl e, w') => (inl e, w')
    | inr a, (inr l, w') => (inr (a :: l), w')
    end.
Proof.
  unfold gather; simpl.
  destruct (t w) as [[e|a] w1]; simpl;
    destruct (run_tasks tasks w1) as [rs w2]; simpl; [done|].
  by destruct (collect rs).
Qed.

(** The store after the batch is the store after its last coroutine. *)
Lemma gather_world tasks w :
  (gather tasks w).2 = world_before tasks (length tasks) w.
Proof.
  unfold gather, world_before. rewrite firstn_all.
  by destruct (run_tasks tasks w).
Qed.

(** When every coroutine returns, the caller gets one result per
    coroutine, at the coroutine's own index. *)
Lemma gather_all_return tasks w :
  (∀ i t, tasks !! i = Some t →
     ∃ a, (t (world_before tasks i w)).1 = inr a) →
  ∃ l, (gather tasks w).1 = inr l
       ∧ length l = length tasks
       ∧ ∀ i t, tasks !! i = Some t →
           ∃ a, l !! i = Some a ∧ (t (world_before tasks i w)).1 = inr a.
Proof.
  revert w. induction tasks as [|t tasks IH]; intros w Hall.
  - exists []. split; [done|]. split; [done|]. intros i t Hi. done.
  - destruct (Hall 0 t eq_refl) as [a Ha]. rewrite world_before_0 in Ha.
    destruct (IH (t w).2) as (l & Hl & Hlen & Hidx).
    { intros i t' Hi. destruct (Hall (S i) t' Hi) as [a' Ha'].
      rewrite world_before_S in Ha'. eauto. }
    exists (a :: l). rewrite gather_cons, Ha.
    destruct (gather tasks (t w).2) as [[e|l'] w']; simpl in *; [done|].
    injection Hl as ->. split; [done|]. split; [by rewrite Hlen|].
    intros [|i] t' Hi; simpl in *.
    + injection Hi as <-. exists a. by rewrite world_before_0.
    + rewrite world_before_S. eauto.
Qed.

(** When some coroutine raises, the caller gets an exception: the one of
    the first coroutine that raised. *)
Lemma gather_one_raises tasks w i t e :
  tasks !! i = Some t →
  (t (world_before tasks i w)).1 = inl e →
  ∃ j t' e', j ≤ i ∧ tasks !! j = Some t'
             ∧ (t' (world_before tasks j w)).1 = inl e'
             ∧ (gather tasks w).1 = inl e'.
Proof.
  revert w i. induction tasks as [|t0 tasks IH]; intros w i Hi He; [done|].
  rewrite gather_cons.
  destruct ((t0 w).1) as [e0|a] eqn:H0.
  - exists 0, t0, e0. rewrite world_before_0.
    split; [lia|]. split; [done|]. split; [done|].
    by destruct (gather tasks (t0 w).2).
  - destruct i as [|i]; simpl in Hi.
    + injection Hi as <-. rewrite world_before_0 in He. congruence.
    + rewrite world_before_S in He.
      destruct (IH _ _ Hi He) as (j & t' & e' & Hj & Hj' & Hr & Hg).
      exists (S j), t', e'. rewrite world_before_S.
      split; [lia|]. split; [done|]. split; [done|].
      destruct (gather tasks (t0 w).2) as [[e1|l] w']; simpl in *; congruence.
Qed.

End gather.

(** ** The credential check *)

(** C2: with a non-empty configured password, the check passes exactly when
    the query credential or the header credential equals that password, and
    every other outcome is the one 403 exception. *)
Theorem verify_api_key_iff (pw : string) (api_key api_key_alt : option string) :
  pw ≠ "" →
  (verify_api_key (Settings.mk (Some pw)) api_key api_key_alt = inr tt
     ↔ api_key = Some pw ∨ api_key_alt = Some pw)
  ∧ (¬ (api_key = Some pw ∨ api_key_alt = Some pw) →
     verify_api_key (Settings.mk (Some pw)) api_key api_key_alt
       = inl (HTTPException 403 "Could not validate credentials")).
Proof.
  intros Hpw. unfold verify_api_key; simpl.
  rewrite bool_decide_true by done; simpl.
  destruct (decide (api_key = Some pw)) as [->|Hk].
  - rewrite bool_decide_true by done; simpl. split; [tauto | intros []; auto].
  - rewrite (bool_decide_false _ Hk); simpl.
    destruct (decide (api_key_alt = Some pw)) as [->|Ha].
    + rewrite bool_decide_true by done. split; [tauto | intros []; auto].
    + rewrite (bool_decide_false _ Ha). split; [|done].
      split; [discriminate | intros [|]; done].
Qed.

Lemma verify_api_key_iff_witness :
  "s3cret" ≠ ""
  ∧ (verify_api_key (Settings.mk (Some "s3cret")) None (Some "s3cret") = inr tt
       ↔ None = Some "s3cret" ∨ Some "s3cret" = Some "s3cret").
Proof.
  split; [discriminate |].
  apply (verify_api_key_iff "s3cret" None (Some "s3cret")). discriminate.
Defined.

(** C3: with an empty configured password (unset or the empty string) the
    check passes for every pair of credentials, absent ones included. *)
Theorem verify_api_key_open (api_key api_key_alt : option string) :
  verify_api_key (Settings.mk None) api_key api_key_alt = inr tt
  ∧ verify_api_key (Settings.mk (Some "")) api_key api_key_alt = inr tt
  ∧ verify_api_key (Settings.mk (Some "")) None None = inr tt.
Proof. done. Qed.

(** ** The merge of the shared password into the query parameters *)

Lemma inject_api_password_merged (pw : option string) (d : dict) :
  password_merged pw d (inject_api_password pw d).
Proof.
  unfold password_merged, inject_api_password. split; [|split].
  - intros p -> Hp Hnone. rewrite bool_decide_false; [|rewrite Hnone; by intros []].
    simpl. by rewrite bool_decide_true.
  - intros [-> | [-> | Hsome]].
    + by destruct (bool_decide _).
    + by destruct (bool_decide _).
    + by rewrite bool_decide_true.
  - intros v Hv. rewrite bool_decide_true; [done | by rewrite Hv].
Qed.

Lemma deref_prepared {Ext} (pw : option string) (l : loc) (w : World Ext) :
  deref (prepared pw l w).2 (prepared pw l w).1
  = inject_api_password pw (deref w l).
Proof. apply deref_set_heap_insert. Qed.

(** C6: in [generate_url] and in [_process_url_item] alike, the encoder
    is called with a fresh copy of the caller's query parameters, to which
    the shared password is added under ["api_password"] when that password
    is set and non-empty and the caller's parameters have no such key, and
    which equals the caller's parameters in every other case; a value the
    caller put under the key stays. *)
Theorem api_password_injection {Ext} (enc : EncodeArgs.t → M Ext string) :
  (∀ request w,
     let p := prepared (GenerateUrlRequest.api_password request)
                (GenerateUrlRequest.query_params request) w in
     generate_url enc request w
     = (encoded_url ⇐ enc (single_args request p.1);;
        ret ({["url" := VStr encoded_url]} : gmap string value)) p.2
     ∧ password_merged (GenerateUrlRequest.api_password request)
         (deref w (GenerateUrlRequest.query_params request))
         (deref p.2 (EncodeArgs.query_params (single_args request p.1))))
  ∧ (∀ request h ip_str url_item w,
       let p := prepared (GenerateMultiUrlRequest.api_password request)
                  (MultiUrlRequestItem.query_params url_item) w in
       _process_url_item enc request h ip_str url_item w
       = enc (item_args request h ip_str url_item p.1) p.2
       ∧ password_merged (GenerateMultiUrlRequest.api_password request)
           (deref w (MultiUrlRequestItem.query_params url_item))
           (deref p.2 (EncodeArgs.query_params
                         (item_args request h ip_str url_item p.1)))).
Proof.
  split.
  - intros request w p. split; [apply generate_url_call|].
    unfold single_args; cbn [EncodeArgs.query_params]. subst p.
    rewrite deref_prepared. apply inject_api_password_merged.
  - intros request h ip_str url_item w p.
    split; [apply _process_url_item_call|].
    unfold item_args; cbn [EncodeArgs.query_params]. subst p.
    rewrite deref_prepared. apply inject_api_password_merged.
Qed.

(** ** The deprecated alias *)

(** C8: on every request and store, the alias ends in the store
    [generate_url] ends in, raises what it raises, and otherwise returns
    under ["encoded_url"] the value [generate_url] returns under ["url"]. *)
Theorem alias_same_url {Ext} (enc : EncodeArgs.t → M Ext string)
    (request : GenerateUrlRequest.t) (w : World Ext) :
  match generate_url enc request w with
  | (inr body, w') =>
      ∃ u, body = {["url" := VStr u]}
           ∧ generate_encrypted_or_encoded_url enc request w
             = (inr {["encoded_url" := VStr u]}, w')
  | (inl e, w') =>
      generate_encrypted_or_encoded_url enc request w = (inl e, w')
  end.
Proof.
  pose proof (generate_url_call enc request w) as Hc. simpl in Hc.
  unfold generate_encrypted_or_encoded_url, bind.
  rewrite Hc. unfold bind.
  destruct (enc _ _) as [[e|u] w']; simpl; [done|].
  exists u. split; [done|].
  unfold getitem, ret. by rewrite lookup_singleton_eq.
Qed.

(** ** The batch *)

Lemma batch_tasks_lookup {Ext} (enc : EncodeArgs.t → M Ext string)
    (request : GenerateMultiUrlRequest.t) (i : nat) :
  batch_tasks enc request !! i
  = item_task enc request <$> GenerateMultiUrlRequest.urls request !! i.
Proof. unfold batch_tasks, item_task. apply list_lookup_fmap. Qed.

Lemma generate_urls_result {Ext} (enc : EncodeArgs.t → M Ext string)
    (request : GenerateMultiUrlRequest.t) (w : World Ext) :
  (generate_urls enc request w).1
  = match (gather (batch_tasks enc request) w).1 with
    | inl e => inl e
    | inr us => inr {["urls" := VList us]}
    end.
Proof.
  rewrite generate_urls_gather. unfold bind, ret.
  by destruct (gather _ w) as [[e|us] w'].
Qed.

Lemma run_tasks_ext {Ext A B} (f g : B → M Ext A) (l : list B) (w : World Ext) :
  (∀ x w0, f x w0 = g x w0) →
  run_tasks (map f l) w = run_tasks (map g l) w.
Proof.
  intros Hfg. revert w. induction l as [|x l IH]; intros w; [done|].
  cbn [map run_tasks]. rewrite Hfg. destruct (g x w) as [r w1]. by rewrite IH.
Qed.

(** [generate_urls], one encoder call per entry written out. *)
Lemma generate_urls_calls {Ext} (enc : EncodeArgs.t → M Ext string)
    (request : GenerateMultiUrlRequest.t) (w : World Ext) :
  generate_urls enc request w
  = (encoded_urls ⇐
       gather
         (map (λ url_item w0,
                 let p := prepared (GenerateMultiUrlRequest.api_password request)
                            (MultiUrlRequestItem.query_params url_item) w0 in
                 enc (EncodeArgs.mk
                        (GenerateMultiUrlRequest.mediaflow_proxy_url request)
                        (MultiUrlRequestItem.endpoint url_item)
                        (MultiUrlRequestItem.destination_url url_item)
                        p.1
                        (MultiUrlRequestItem.request_headers url_item)
                        (MultiUrlRequestItem.response_headers url_item)
                        (if truthy (GenerateMultiUrlRequest.api_password request)
                         then mkEncryptionHandler
                                <$> GenerateMultiUrlRequest.api_password request
                         else None)
                        (GenerateMultiUrlRequest.expiration request)
                        (str <$> GenerateMultiUrlRequest.ip request)
                        (MultiUrlRequestItem.filename url_item))
                     p.2)
              (GenerateMultiUrlRequest.urls request));;
     ret ({["urls" := VList encoded_urls]} : gmap string value)) w.
Proof.
  rewrite generate_urls_gather. unfold bind, gather, batch_tasks.
  erewrite (run_tasks_ext (item_task enc request)); [reflexivity|].
  intros url_item w0. unfold item_task. by rewrite _process_url_item_call.
Qed.

Lemma gather_returns_inv {Ext A} (tasks : list (M Ext A)) (w : World Ext)
    (l : list A) :
  (gather tasks w).1 = inr l →
  length l = length tasks
  ∧ ∀ i t, tasks !! i = Some t →
      ∃ a, l !! i = Some a ∧ (t (world_before tasks i w)).1 = inr a.
Proof.
  intros Hg.
  destruct (gather_all_return tasks w) as (l' & Hl' & Hlen & Hidx).
  { intros i t Hi.
    destruct ((t (world_before tasks i w)).1) as [e|a] eqn:Ht; [|by exists a].
    destruct (gather_one_raises tasks w i t e Hi Ht) as (? & ? & ? & _ & _ & _ & Hr).
    congruence. }
  rewrite Hg in Hl'. injection Hl' as <-. done.
Qed.

(** C4, as the claim has it, fails: [generate_urls] checks neither the
    destination_url nor the endpoint of an entry, so with an encoder that
    accepts any destination a batch whose second entry has an empty
    destination_url returns three URLs. *)
Lemma invalid_entry_batch_returns_urls :
  demo_items_bad !! 1 = Some (demo_item "" 2)
  ∧ MultiUrlRequestItem.destination_url (demo_item "" 2) = ""
  ∧ (generate_urls lenient_encode (demo_batch demo_items_bad)
       (mkWorld demo_heap 0)).1
    = inr {["urls" := VList ["http://mfp/proxy/stream?d=http://a/1";
                              "http://mfp/proxy/stream?d=";
                              "http://mfp/proxy/stream?d=http://a/3"]]}.
Proof.
  split; [reflexivity|]. split; [reflexivity|]. vm_compute. reflexivity.
Qed.

(** C4, amended: [generate_urls] validates nothing itself, but it is all or
    nothing about what the processing of its entries raises.  If the
    coroutine of any one entry raises, [generate_urls] raises, with the
    exception of the first entry that raised, and returns no body at all;
    and whenever it returns, the body holds exactly one URL per entry, each
    the result of that entry's coroutine: never a partial list. *)
Theorem generate_urls_all_or_nothing {Ext} (enc : EncodeArgs.t → M Ext string)
    (request : GenerateMultiUrlRequest.t) (w : World Ext) :
  (∀ i url_item e,
     GenerateMultiUrlRequest.urls request !! i = Some url_item →
     (item_task enc request url_item
        (world_before (batch_tasks enc request) i w)).1 = inl e →
     (∃ j first e',
        j ≤ i
        ∧ GenerateMultiUrlRequest.urls request !! j = Some first
        ∧ (item_task enc request first
             (world_before (batch_tasks enc request) j w)).1 = inl e'
        ∧ (generate_urls enc request w).1 = inl e')
     ∧ ∀ body, (generate_urls enc request w).1 ≠ inr body)
  ∧ (∀ body,
       (generate_urls enc request w).1 = inr body →
       ∃ us, body = {["urls" := VList us]}
             ∧ length us = length (GenerateMultiUrlRequest.urls request)
             ∧ ∀ i url_item,
                 GenerateMultiUrlRequest.urls request !! i = Some url_item →
                 ∃ u, us !! i = Some u
                      ∧ (item_task enc request url_item
                           (world_before (batch_tasks enc request) i w)).1
                        = inr u).
Proof.
  split.
  - intros i url_item e Hi He.
    destruct (gather_one_raises (batch_tasks enc request) w i
                (item_task enc request url_item) e)
      as (j & t' & e' & Hj & Ht' & Hr & Hg).
    { by rewrite batch_tasks_lookup, Hi. }
    { done. }
    rewrite batch_tasks_lookup in Ht'.
    apply fmap_Some in Ht' as (first & Hfirst & ->).
    rewrite generate_urls_result, Hg. split; [|done].
    by exists j, first, e'.
  - intros body. rewrite generate_urls_result.
    destruct ((gather (batch_tasks enc request) w).1) as [e|us] eqn:Hg; [done|].
    intros [= <-]. exists us. split; [done|].
    destruct (gather_returns_inv _ _ _ Hg) as [Hlen Hidx].
    split; [by rewrite Hlen; unfold batch_tasks; rewrite length_map|].
    intros i url_item Hi. apply Hidx. by rewrite batch_tasks_lookup, Hi.
Qed.

Lemma generate_urls_all_or_nothing_witness :
  demo_items_bad !! 1 = Some (demo_item "" 2)
  ∧ (generate_urls demo_encode (demo_batch demo_items_bad)
       (mkWorld demo_heap 0)).1
    = inl (Raised "destination_url must not be empty")
  ∧ ∀ body, (generate_urls demo_encode (demo_batch demo_items_bad)
               (mkWorld demo_heap 0)).1 ≠ inr body.
Proof.
  split; [reflexivity|].
  destruct (proj1 (generate_urls_all_or_nothing demo_encode
                     (demo_batch demo_items_bad) (mkWorld demo_heap 0))
              1 (demo_item "" 2) (Raised "destination_url must not be empty"))
    as [_ Hnone].
  - reflexivity.
  - vm_compute. reflexivity.
  - split; [vm_compute; reflexivity | exact Hnone].
Defined.

(** C5: if the coroutine of every entry returns, [generate_urls] returns
    the body [{"urls": us}] where [us] has one URL per entry and the URL at
    index [i] is the one the encoder returned for the entry at index [i],
    called with that entry's fields in the store the earlier entries left. *)
Theorem generate_urls_index_aligned {Ext} (enc : EncodeArgs.t → M Ext string)
    (request : GenerateMultiUrlRequest.t) (w : World Ext) :
  (∀ i url_item, GenerateMultiUrlRequest.urls request !! i = Some url_item →
     ∃ u, (item_task enc request url_item
             (world_before (batch_tasks enc request) i w)).1 = inr u) →
  ∃ us, (generate_urls enc request w).1 = inr {["urls" := VList us]}
        ∧ length us = length (GenerateMultiUrlRequest.urls request)
        ∧ ∀ i url_item,
            GenerateMultiUrlRequest.urls request !! i = Some url_item →
            ∃ u qp w1,
              us !! i = Some u
              ∧ (enc (item_args request
                        (handler_of (GenerateMultiUrlRequest.api_password request))
                        (str <$> GenerateMultiUrlRequest.ip request)
                        url_item qp) w1).1 = inr u
              ∧ (qp, w1) = prepared (GenerateMultiUrlRequest.api_password request)
                             (MultiUrlRequestItem.query_params url_item)
                             (world_before (batch_tasks enc request) i w).
Proof.
  intros Hall.
  destruct (gather_all_return (batch_tasks enc request) w) as (us & Hg & Hlen & Hidx).
  { intros i t Hi. rewrite batch_tasks_lookup in Hi.
    destruct (GenerateMultiUrlRequest.urls request !! i) as [it|] eqn:Hit; [|done].
    injection Hi as <-. eauto. }
  exists us. rewrite generate_urls_result, Hg. split; [done|].
  split; [by rewrite Hlen; unfold batch_tasks; rewrite length_map|].
  intros i url_item Hi.
  destruct (Hidx i (item_task enc request url_item)) as (u & Hu & Hr).
  { by rewrite batch_tasks_lookup, Hi. }
  unfold item_task in Hr. rewrite _process_url_item_call in Hr.
  eexists u, _, _. split; [done|]. split; [exact Hr|].
  by destruct (prepared _ _ _).
Qed.

Lemma generate_urls_index_aligned_witness :
  ∃ us, (generate_urls demo_encode (demo_batch demo_items_ok)
           (mkWorld demo_heap 0)).1 = inr {["urls" := VList us]}
        ∧ length us = 3.
Proof.
  destruct (generate_urls_index_aligned demo_encode (demo_batch demo_items_ok)
              (mkWorld demo_heap 0)) as (us & Hus & Hlen & _).
  - intros [|[|[|i]]] url_item Hi; simpl in Hi; [| | |done];
      injection Hi as <-; eexists; vm_compute; reflexivity.
  - exists us. split; [exact Hus | exact Hlen].
Defined.

(** ** Which fields come from the entry and which from the batch *)

(** C7, as the claim has it, fails: an entry that carries an expiration and
    an address of its own is still encoded with the expiration and the
    address of the batch. *)
Lemma item_level_expiration_ip_not_used :
  MultiUrlRequestItem.extra demo_item_extra !! "expiration" = Some "200"
  ∧ MultiUrlRequestItem.extra demo_item_extra !! "ip" = Some "5.6.7.8"
  ∧ GenerateMultiUrlRequest.expiration (demo_batch [demo_item_extra]) = Some 100%Z
  ∧ ∃ args,
      ext (generate_urls recording_encode (demo_batch [demo_item_extra])
             (mkWorld demo_heap [])).2 = [args]
      ∧ EncodeArgs.expiration args = Some 100%Z
      ∧ EncodeArgs.expiration args ≠ Some 200%Z
      ∧ EncodeArgs.ip args = Some "1.2.3.4"
      ∧ EncodeArgs.ip args ≠ Some "5.6.7.8".
Proof.
  split; [reflexivity|]. split; [reflexivity|]. split; [reflexivity|].
  eexists. split; [vm_compute; reflexivity|]. simpl.
  repeat split; discriminate.
Qed.

(** C7, amended: [generate_urls] makes, for each entry in order, one
    encoder call that takes endpoint, destination_url, request_headers,
    response_headers and filename from the entry, and the proxy URL, the
    expiration, the address and the handler from the batch; nothing else an
    entry carries (an expiration or an address of its own, say) changes
    what [generate_urls] does. *)
Theorem item_fields_and_shared_fields {Ext} (enc : EncodeArgs.t → M Ext string)
    (request : GenerateMultiUrlRequest.t) (w : World Ext) :
  generate_urls enc request w
  = (encoded_urls ⇐
       gather
         (map (λ url_item w0,
                 let p := prepared (GenerateMultiUrlRequest.api_password request)
                            (MultiUrlRequestItem.query_params url_item) w0 in
                 enc (EncodeArgs.mk
                        (GenerateMultiUrlRequest.mediaflow_proxy_url request)
                        (MultiUrlRequestItem.endpoint url_item)
                        (MultiUrlRequestItem.destination_url url_item)
                        p.1
                        (MultiUrlRequestItem.request_headers url_item)
                        (MultiUrlRequestItem.response_headers url_item)
                        (if truthy (GenerateMultiUrlRequest.api_password request)
                         then mkEncryptionHandler
                                <$> GenerateMultiUrlRequest.api_password request
                         else None)
                        (GenerateMultiUrlRequest.expiration request)
                        (str <$> GenerateMultiUrlRequest.ip request)
                        (MultiUrlRequestItem.filename url_item))
                     p.2)
              (GenerateMultiUrlRequest.urls request));;
     ret ({["urls" := VList encoded_urls]} : gmap string value)) w
  ∧ generate_urls enc
      (GenerateMultiUrlRequest.mk
         (GenerateMultiUrlRequest.mediaflow_proxy_url request)
         (GenerateMultiUrlRequest.api_password request)
         (GenerateMultiUrlRequest.expiration request)
         (GenerateMultiUrlRequest.ip request)
         (map without_extra (GenerateMultiUrlRequest.urls request))) w
    = generate_urls enc request w.
Proof.
  split; [apply generate_urls_calls|].
  rewrite !generate_urls_calls. unfold bind, gather.
  cbn [GenerateMultiUrlRequest.urls GenerateMultiUrlRequest.api_password
       GenerateMultiUrlRequest.mediaflow_proxy_url
       GenerateMultiUrlRequest.expiration GenerateMultiUrlRequest.ip].
  rewrite map_map.
  erewrite run_tasks_ext; [reflexivity|]. intros url_item w0. reflexivity.
Qed.

Lemma item_fields_and_shared_fields_witness :
  MultiUrlRequestItem.extra demo_item_extra !! "expiration" = Some "200"
  ∧ (λ args, (EncodeArgs.expiration args, EncodeArgs.ip args))
      <$> ext (generate_urls recording_encode (demo_batch [demo_item_extra])
                 (mkWorld demo_heap [])).2
    = [(Some 100%Z, Some "1.2.3.4")].
Proof.
  split; [reflexivity|].
  rewrite (proj1 (item_fields_and_shared_fields recording_encode
                    (demo_batch [demo_item_extra]) (mkWorld demo_heap []))).
  vm_compute. reflexivity.
Defined.

(** ** The handler of a batch *)

(** C10: [generate_urls] makes, for each entry in order, one encoder call
    whose handler is the one built from the batch-level password (none when
    that password is unset or empty), so that what it does depends on the
    encoder only through calls with that handler; a value an entry has under
    ["api_password"] stays in the query parameters of its call and has no
    part in the handler. *)
Theorem batch_single_handler {Ext} (enc : EncodeArgs.t → M Ext string)
    (request : GenerateMultiUrlRequest.t) (w : World Ext) :
  generate_urls enc request w
  = (encoded_urls ⇐
       gather
         (map (λ url_item w0,
                 let p := prepared (GenerateMultiUrlRequest.api_password request)
                            (MultiUrlRequestItem.query_params url_item) w0 in
                 enc (item_args request
                        (if truthy (GenerateMultiUrlRequest.api_password request)
                         then mkEncryptionHandler
                                <$> GenerateMultiUrlRequest.api_password request
                         else None)
                        (str <$> GenerateMultiUrlRequest.ip request)
                        url_item p.1)
                     p.2)
              (GenerateMultiUrlRequest.urls request));;
     ret ({["urls" := VList encoded_urls]} : gmap string value)) w
  ∧ (∀ enc' : EncodeArgs.t → M Ext string,
       (∀ args w0,
          EncodeArgs.encryption_handler args
          = (if truthy (GenerateMultiUrlRequest.api_password request)
             then mkEncryptionHandler
                    <$> GenerateMultiUrlRequest.api_password request
             else None) →
          enc' args w0 = enc args w0) →
       generate_urls enc' request w = generate_urls enc request w)
  ∧ (∀ url_item (w0 : World Ext) v,
       deref w0 (MultiUrlRequestItem.query_params url_item) !! "api_password"
       = Some v →
       let p := prepared (GenerateMultiUrlRequest.api_password request)
                  (MultiUrlRequestItem.query_params url_item) w0 in
       deref p.2 p.1 !! "api_password" = Some v).
Proof.
  split; [apply generate_urls_calls|]. split.
  - intros enc' Hsame. rewrite !generate_urls_calls. unfold bind, gather.
    rewrite (run_tasks_ext _
               (λ url_item w0,
                  let p := prepared (GenerateMultiUrlRequest.api_password request)
                             (MultiUrlRequestItem.query_params url_item) w0 in
                  enc (item_args request
                         (if truthy (GenerateMultiUrlRequest.api_password request)
                          then mkEncryptionHandler
                                 <$> GenerateMultiUrlRequest.api_password request
                          else None)
                         (str <$> GenerateMultiUrlRequest.ip request)
                         url_item p.1)
                      p.2)
               (GenerateMultiUrlRequest.urls request) w); [done|].
    intros url_item w0. by apply Hsame.
  - intros url_item w0 v Hv p. subst p. rewrite deref_prepared.
    by apply inject_api_password_merged.
Qed.

Lemma batch_single_handler_witness :
  demo_heap !! 2%positive = Some {["api_password" := "item-secret"]}
  ∧ EncodeArgs.encryption_handler
      <$> ext (generate_urls recording_encode (demo_batch demo_items_ok)
                 (mkWorld demo_heap [])).2
    = [Some (mkEncryptionHandler "shared"); Some (mkEncryptionHandler "shared");
       Some (mkEncryptionHandler "shared")].
Proof.
  split; [reflexivity|].
  rewrite (proj1 (batch_single_handler recording_encode
                    (demo_batch demo_items_ok) (mkWorld demo_heap []))).
  vm_compute. reflexivity.
Defined.

(** ** The caller's query parameters are left alone *)

Section frame.
Context {Ext : Type}.
Variable enc : EncodeArgs.t → M Ext string.
Hypothesis enc_frame : encoder_frame enc.

Lemma prepared_other (pw : option string) (l0 l : loc) (w : World Ext) :
  is_Some (heap w !! l) →
  l ≠ (prepared pw l0 w).1 ∧ heap (prepared pw l0 w).2 !! l = heap w !! l.
Proof.
  intros Hl. unfold prepared; simpl.
  assert (l ≠ fresh (dom (heap w))) as Hne.
  { intros ->. apply (is_fresh (dom (heap w))). by apply elem_of_dom. }
  split; [done|]. by rewrite lookup_insert_ne.
Qed.

Lemma item_task_frame (request : GenerateMultiUrlRequest.t)
    (url_item : MultiUrlRequestItem.t) (l : loc) (w : World Ext) :
  is_Some (heap w !! l) →
  l ≠ MultiUrlRequestItem.request_headers url_item →
  l ≠ MultiUrlRequestItem.response_headers url_item →
  heap (item_task enc request url_item w).2 !! l = heap w !! l.
Proof.
  intros Hl Hrh Hresp. unfold item_task. rewrite _process_url_item_call.
  destruct (prepared_other (GenerateMultiUrlRequest.api_password request)
              (MultiUrlRequestItem.query_params url_item) l w Hl) as [Hne Hsame].
  cbv zeta. rewrite enc_frame; [done | by rewrite Hsame | done..].
Qed.

Lemma run_tasks_frame (request : GenerateMultiUrlRequest.t)
    (items : list MultiUrlRequestItem.t) (l : loc) (w : World Ext) :
  is_Some (heap w !! l) →
  (∀ it, it ∈ items →
     l ≠ MultiUrlRequestItem.request_headers it
     ∧ l ≠ MultiUrlRequestItem.response_headers it) →
  heap (run_tasks (map (item_task enc request) items) w).2 !! l = heap w !! l.
Proof.
  revert w. induction items as [|it items IH]; intros w Hl Hne; [done|].
  simpl.
  pose proof (item_task_frame request it l w Hl
                (proj1 (Hne it (list_elem_of_here _ _)))
                (proj2 (Hne it (list_elem_of_here _ _)))) as Hstep.
  destruct (item_task enc request it w) as [r w1]; simpl in *.
  specialize (IH w1).
  destruct (run_tasks _ w1) as [rs w2]; simpl in *.
  rewrite IH, Hstep; [done | by rewrite Hstep |].
  intros it' Hin. apply Hne. by apply list_elem_of_further.
Qed.

(** C9: with an encoder that changes only the dicts it is handed, and
    query parameters that are a live object of their own (not also used as
    a headers dict), the dict behind the request's [query_params] holds
    after [generate_url], and after its deprecated alias, what it held
    before, and so does the dict behind every entry's [query_params] after
    [generate_urls]. *)
Theorem query_params_not_mutated :
  (∀ request w,
     is_Some (heap w !! GenerateUrlRequest.query_params request) →
     GenerateUrlRequest.query_params request
       ≠ GenerateUrlRequest.request_headers request →
     GenerateUrlRequest.query_params request
       ≠ GenerateUrlRequest.response_headers request →
     heap (generate_url enc request w).2 !! GenerateUrlRequest.query_params request
     = heap w !! GenerateUrlRequest.query_params request
     ∧ heap (generate_encrypted_or_encoded_url enc request w).2
         !! GenerateUrlRequest.query_params request
       = heap w !! GenerateUrlRequest.query_params request)
  ∧ (∀ request w,
       (∀ it, it ∈ GenerateMultiUrlRequest.urls request →
          is_Some (heap w !! MultiUrlRequestItem.query_params it)) →
       (∀ it it', it ∈ GenerateMultiUrlRequest.urls request →
          it' ∈ GenerateMultiUrlRequest.urls request →
          MultiUrlRequestItem.query_params it
            ≠ MultiUrlRequestItem.request_headers it'
          ∧ MultiUrlRequestItem.query_params it
            ≠ MultiUrlRequestItem.response_headers it') →
       ∀ it, it ∈ GenerateMultiUrlRequest.urls request →
         heap (generate_urls enc request w).2 !! MultiUrlRequestItem.query_params it
         = heap w !! MultiUrlRequestItem.query_params it).
Proof.
  split.
  - intros request w Hl Hrh Hresp. rewrite alias_world.
    cut (heap (generate_url enc request w).2
           !! GenerateUrlRequest.query_params request
         = heap w !! GenerateUrlRequest.query_params request); [done|].
    pose proof (generate_url_call enc request w) as Hc. cbv zeta in Hc.
    rewrite Hc. unfold bind, ret.
    destruct (prepared_other (GenerateUrlRequest.api_password request)
                (GenerateUrlRequest.query_params request)
                (GenerateUrlRequest.query_params request) w Hl) as [Hne Hsame].
    pose proof (enc_frame
      (single_args request
         (prepared (GenerateUrlRequest.api_password request)
            (GenerateUrlRequest.query_params request) w).1)
      (prepared (GenerateUrlRequest.api_password request)
         (GenerateUrlRequest.query_params request) w).2
      (GenerateUrlRequest.query_params request)) as Hf.
    rewrite Hsame in Hf. specialize (Hf Hl Hne Hrh Hresp).
    destruct (enc _ _) as [[e|u] w2]; exact Hf.
  - intros request w Hlive Hsep it Hit.
    rewrite generate_urls_gather. unfold bind, ret, gather.
    pose proof (run_tasks_frame request (GenerateMultiUrlRequest.urls request)
                  (MultiUrlRequestItem.query_params it) w (Hlive it Hit)
                  (λ it' Hit', Hsep it it' Hit Hit')) as Hrun.
    fold (batch_tasks enc request) in Hrun. unfold batch_tasks in *.
    fold (item_task enc request).
    destruct (run_tasks _ w) as [rs w']; simpl in *.
    by destruct (collect rs).
Qed.

End frame.

Lemma demo_encode_frame : encoder_frame demo_encode.
Proof.
  intros args w l _ Hqp _ _. unfold demo_encode.
  destruct (bool_decide _); simpl; [done|].
  by rewrite lookup_insert_ne.
Qed.

Lemma query_params_not_mutated_witness :
  encoder_frame demo_encode
  ∧ heap (generate_url demo_encode demo_single (mkWorld demo_heap 0)).2 !! 1%positive
    = Some {["quality" := "hd"]}
  ∧ heap (generate_urls demo_encode (demo_batch demo_items_ok)
            (mkWorld demo_heap 0)).2 !! 2%positive
    = Some {["api_password" := "item-secret"]}.
Proof.
  split; [exact demo_encode_frame|].
  destruct (query_params_not_mutated demo_encode demo_encode_frame)
    as [Hsingle Hbatch].
  split.
  - refine (eq_trans (proj1 (Hsingle demo_single (mkWorld demo_heap 0) _ _ _)) _).
    + vm_compute. eauto.
    + discriminate.
    + discriminate.
    + reflexivity.
  - refine (eq_trans (Hbatch (demo_batch demo_items_ok) (mkWorld demo_heap 0)
                        _ _ (demo_item "http://a/2" 2) _) _).
    + intros it Hit. unfold demo_batch, demo_items_ok in Hit; simpl in Hit.
      decompose_list_elem_of; subst; vm_compute; eauto.
    + intros it it' Hit Hit'.
      unfold demo_batch, demo_items_ok in Hit, Hit'; simpl in Hit, Hit'.
      decompose_list_elem_of; subst; split; discriminate.
    + apply list_elem_of_further, list_elem_of_here.
    + reflexivity.
Defined.

(** * The token codec *)

(** ** Bytes and numbers *)

Lemma byte_of_to_N (b : byte) : byte_of_N (Byte.to_N b) = b.
Proof. unfold byte_of_N. by rewrite Byte.of_to_N. Qed.

Lemma to_N_byte_of_N (n : N) : (n < 256)%N → Byte.to_N (byte_of_N n) = n.
Proof.
  intros Hn. unfold byte_of_N.
  destruct (Byte.of_N n) as [b|] eqn:Hb; simpl.
  - by apply Byte.to_of_N.
  - apply Byte.of_N_None_iff in Hb. lia.
Qed.

Lemma to_N_lt_256 (b : byte) : (Byte.to_N b < 256)%N.
Proof. pose proof (Byte.to_N_bounded b). lia. Qed.

Lemma get_varint_cons (b : byte) (rest : list byte) :
  get_varint (b :: rest)
  = if (Byte.to_N b <? 128)%N then Some (Byte.to_N b, rest)
    else match get_varint rest with
         | Some (hi, rest') => Some ((Byte.to_N b - 128 + 128 * hi)%N, rest')
         | None => None
         end.
Proof. done. Qed.

Lemma put_varint_fuel_unfold (fuel : nat) (n : N) :
  put_varint_fuel fuel n
  = if (n <? 128)%N then [byte_of_N n]
    else match fuel with
         | O => []
         | S fuel' => byte_of_N (128 + n mod 128) :: put_varint_fuel fuel' (n / 128)
         end.
Proof. by destruct fuel. Qed.

Lemma get_put_varint_fuel (fuel : nat) (n : N) (rest : list byte) :
  (n < 128 * 2 ^ N.of_nat fuel)%N →
  get_varint (put_varint_fuel fuel n ++ rest) = Some (n, rest).
Proof.
  revert n. induction fuel as [|fuel IH]; intros n Hn;
    rewrite put_varint_fuel_unfold;
    destruct (N.ltb_spec n 128) as [Hlt|Hge].
  - rewrite <- app_comm_cons, get_varint_cons, to_N_byte_of_N by lia.
    by destruct (N.ltb_spec n 128); [|lia].
  - change (2 ^ N.of_nat 0)%N with 1%N in Hn. lia.
  - rewrite <- app_comm_cons, get_varint_cons, to_N_byte_of_N by lia.
    by destruct (N.ltb_spec n 128); [|lia].
  - rewrite Nat2N.inj_succ, N.pow_succ_r' in Hn.
    assert (n / 128 < 128 * 2 ^ N.of_nat fuel)%N as Hq.
    { apply N.Div0.div_lt_upper_bound.
      pose proof (N.pow_nonzero 2 (N.of_nat fuel) ltac:(lia)). lia. }
    pose proof (N.mod_lt n 128 ltac:(lia)) as Hmod.
    pose proof (N.div_mod n 128 ltac:(lia)) as Hdiv.
    specialize (IH _ Hq). revert Hmod Hdiv IH.
    generalize (n mod 128)%N (n / 128)%N. intros m q Hmod Hdiv IH.
    rewrite <- app_comm_cons, get_varint_cons, to_N_byte_of_N by lia.
    destruct (N.ltb_spec (128 + m) 128); [lia|].
    rewrite IH. f_equal. f_equal. lia.
Qed.

Lemma varint_reads_back : reads_back put_varint get_varint.
Proof.
  intros n rest. apply get_put_varint_fuel.
  rewrite N2Nat.id. pose proof (N.size_gt n). lia.
Qed.

Lemma bytes_reads_back : reads_back put_bytes get_bytes.
Proof.
  intros bs rest. unfold put_bytes, get_bytes.
  rewrite <- app_assoc, varint_reads_back. simpl.
  rewrite Nat2N.id.
  rewrite decide_True by (rewrite length_app; lia).
  by rewrite take_app_length, drop_app_length.
Qed.

Lemma string_reads_back : reads_back put_string get_string.
Proof.
  intros s rest. unfold put_string, get_string.
  rewrite bytes_reads_back. simpl.
  by rewrite String.string_of_list_byte_of_string.
Qed.

Lemma Z_reads_back : reads_back put_Z get_Z.
Proof.
  intros z rest. unfold put_Z, get_Z.
  rewrite <- app_comm_cons, varint_reads_back.
  destruct (Z.ltb_spec z 0) as [Hneg|Hpos]; simpl; f_equal; f_equal; lia.
Qed.

Lemma option_reads_back {A} (put : A → list byte) (get : parser A) :
  reads_back put get → reads_back (put_option put) (get_option get).
Proof.
  intros Hok [a|] rest; unfold put_option, get_option; simpl; [|done].
  by rewrite Hok.
Qed.

Lemma entry_reads_back : reads_back put_entry get_entry.
Proof.
  intros [k v] rest. unfold put_entry, get_entry; simpl.
  rewrite <- app_assoc, string_reads_back. simpl.
  by rewrite string_reads_back.
Qed.

Lemma many_reads_back {A} (put : A → list byte) (get : parser A)
    (l : list A) (rest : list byte) :
  reads_back put get →
  get_many get (length l) (concat (put <$> l) ++ rest) = Some (l, rest).
Proof.
  intros Hok. induction l as [|a l IH]; [done|].
  csimpl. rewrite <- app_assoc, Hok. csimpl. by rewrite IH.
Qed.

Lemma dict_reads_back : reads_back put_dict get_dict.
Proof.
  intros d rest. unfold put_dict, get_dict.
  rewrite <- app_assoc, varint_reads_back. simpl.
  rewrite Nat2N.id, (many_reads_back put_entry) by apply entry_reads_back.
  simpl. by rewrite list_to_map_to_list.
Qed.

(** Parsing the serialization of a payload gives the payload. *)
Lemma parse_serialize (p : TokenPayload.t) : parse (serialize p) = Some p.
Proof.
  destruct p as [dest ep qp rh resp exp ip fn pw].
  unfold serialize, parse; simpl.
  rewrite string_reads_back; simpl.
  rewrite string_reads_back; simpl.
  rewrite dict_reads_back; simpl.
  rewrite dict_reads_back; simpl.
  rewrite dict_reads_back; simpl.
  rewrite (option_reads_back put_Z get_Z Z_reads_back); simpl.
  rewrite (option_reads_back put_string get_string string_reads_back); simpl.
  rewrite (option_reads_back put_string get_string string_reads_back); simpl.
  rewrite <- (app_nil_r (put_option put_string pw)).
  by rewrite (option_reads_back put_string get_string string_reads_back).
Qed.

(** ** base64url *)

Lemma list_ind3 {A} (P : list A → Prop) :
  P [] → (∀ a, P [a]) → (∀ a b, P [a; b]) →
  (∀ a b c l, P l → P (a :: b :: c :: l)) →
  ∀ l, P l.
Proof.
  intros H0 H1 H2 H3. fix IH 1.
  intros [|a [|b [|c l]]]; [exact H0 | apply H1 | apply H2 | apply H3, IH].
Qed.

Ltac euclid := zify; Z.to_euclidean_division_equations; lia.

Lemma sextet_of_char_of_sextet (s : N) :
  (s < 64)%N → sextet_of_char (char_of_sextet s) = Some s.
Proof.
  intros Hs. rewrite <- (N2Nat.id s).
  assert (N.to_nat s < 64) as Hn by lia. revert Hn.
  generalize (N.to_nat s). intros n Hn.
  do 64 (destruct n as [|n]; [vm_compute; reflexivity|]). lia.
Qed.

Lemma sextets_of_bytes_bound (bs : list byte) :
  Forall (λ s, (s < 64)%N) (sextets_of_bytes bs).
Proof.
  induction bs as [|b0|b0 b1|b0 b1 b2 rest IH] using list_ind3.
  - constructor.
  - pose proof (to_N_lt_256 b0). cbn [sextets_of_bytes].
    repeat constructor; euclid.
  - pose proof (to_N_lt_256 b0). pose proof (to_N_lt_256 b1).
    cbn [sextets_of_bytes]. repeat constructor; euclid.
  - pose proof (to_N_lt_256 b0). pose proof (to_N_lt_256 b1).
    pose proof (to_N_lt_256 b2). cbn [sextets_of_bytes].
    repeat (apply Forall_cons; split; [euclid|]). exact IH.
Qed.

Lemma sextets_of_chars_of_sextets (ss : list N) :
  Forall (λ s, (s < 64)%N) ss →
  sextets_of_chars (char_of_sextet <$> ss) = Some ss.
Proof.
  induction 1 as [|s ss Hs _ IH]; [done|].
  csimpl. rewrite sextet_of_char_of_sextet by done. csimpl. by rewrite IH.
Qed.

Lemma join_one (b0 : N) :
  (b0 < 256)%N →
  let n := (b0 * 16)%N in
  ((n / 64 * 64 + n mod 64) / 16)%N = b0.
Proof. intros H n. subst n. euclid. Qed.

Lemma join_two (b0 b1 : N) :
  (b0 < 256)%N → (b1 < 256)%N →
  let n := ((b0 * 256 + b1) * 4)%N in
  let m := (((n / 4096 * 64 + (n / 64) mod 64) * 64 + n mod 64))%N in
  (m / 1024)%N = b0 ∧ ((m / 4) mod 256)%N = b1.
Proof. intros H0 H1 n m. subst n m. split; euclid. Qed.

Lemma join_three (b0 b1 b2 : N) :
  (b0 < 256)%N → (b1 < 256)%N → (b2 < 256)%N →
  let n := ((b0 * 256 + b1) * 256 + b2)%N in
  let m := ((((n / 262144 * 64 + (n / 4096) mod 64) * 64 + (n / 64) mod 64) * 64
             + n mod 64))%N in
  (m / 65536)%N = b0 ∧ ((m / 256) mod 256)%N = b1 ∧ (m mod 256)%N = b2.
Proof. intros H0 H1 H2 n m. subst n m. repeat split; euclid. Qed.

Lemma bytes_of_sextets_of_bytes (bs : list byte) :
  bytes_of_sextets (sextets_of_bytes bs) = Some bs.
Proof.
  induction bs as [|b0|b0 b1|b0 b1 b2 rest IH] using list_ind3.
  - done.
  - cbn [sextets_of_bytes bytes_of_sextets].
    rewrite (join_one _ (to_N_lt_256 b0)). by rewrite byte_of_to_N.
  - cbn [sextets_of_bytes bytes_of_sextets].
    destruct (join_two _ _ (to_N_lt_256 b0) (to_N_lt_256 b1)) as [-> ->].
    by rewrite !byte_of_to_N.
  - cbn [sextets_of_bytes bytes_of_sextets app].
    rewrite IH. cbn [mbind option_bind].
    destruct (join_three _ _ _ (to_N_lt_256 b0) (to_N_lt_256 b1)
                (to_N_lt_256 b2)) as (-> & -> & ->).
    by rewrite !byte_of_to_N.
Qed.

Lemma base64url_decode_encode (bs : list byte) :
  base64url_decode (base64url_encode bs) = Some bs.
Proof.
  unfold base64url_decode, base64url_encode.
  rewrite String.list_byte_of_string_of_list_byte.
  rewrite sextets_of_chars_of_sextets by apply sextets_of_bytes_bound.
  apply bytes_of_sextets_of_bytes.
Qed.

(** ** The encryption handler *)

Lemma lxor_lt_256 (a b : N) : (a < 256)%N → (b < 256)%N → (N.lxor a b < 256)%N.
Proof.
  intros Ha Hb.
  destruct (N.eq_dec (N.lxor a b) 0%N) as [->|Hne]; [lia|].
  change 256%N with (2 ^ 8)%N. apply N.log2_lt_pow2; [lia|].
  pose proof (N.log2_lxor a b) as Hl.
  assert (N.log2 a < 8)%N.
  { destruct (N.eq_dec a 0%N) as [->|]; [done|].
    apply N.log2_lt_pow2; [lia | done]. }
  assert (N.log2 b < 8)%N.
  { destruct (N.eq_dec b 0%N) as [->|]; [done|].
    apply N.log2_lt_pow2; [lia | done]. }
  lia.
Qed.

Lemma byte_xor_involutive (a b : byte) : byte_xor (byte_xor a b) b = a.
Proof.
  unfold byte_xor.
  rewrite to_N_byte_of_N by (apply lxor_lt_256; apply to_N_lt_256).
  rewrite N.lxor_assoc, N.lxor_nilpotent, N.lxor_0_r.
  apply byte_of_to_N.
Qed.

Section codec_facts.
Context {Key : Type}.
Variable derive_key : string → Key.
Variable keystream : Key → list byte → nat → byte.
Variable mac : Key → list byte → list byte.
Hypothesis mac_length : ∀ k data, length (mac k data) = TAG_LEN.

Lemma xor_stream_involutive (k : Key) (nonce data : list byte) :
  xor_stream keystream k nonce (xor_stream keystream k nonce data) = data.
Proof.
  unfold xor_stream. apply list_eq. intros i.
  rewrite !list_lookup_imap.
  destruct (data !! i) as [b|]; [|done].
  simpl. by rewrite byte_xor_involutive.
Qed.

Lemma decrypt_encrypt (h : EncryptionHandler) (plaintext : list byte)
    (e : Entropy) :
  decrypt derive_key keystream mac h
    (encrypt derive_key keystream mac h plaintext e).1 = inr plaintext.
Proof.
  unfold encrypt, decrypt, draw. cbv beta iota zeta. cbn [fst].
  set (k := derive_key (secret_key h)).
  set (nonce := tape e <$> seq (cursor e) NONCE_LEN).
  set (ct := xor_stream keystream k nonce plaintext).
  assert (length nonce = NONCE_LEN) as Hnonce.
  { unfold nonce. by rewrite length_fmap, length_seq. }
  rewrite !length_app, Hnonce, mac_length.
  rewrite decide_False by lia.
  rewrite (take_app_length' nonce) by done.
  rewrite (drop_app_length' nonce) by done.
  rewrite length_app, mac_length.
  replace (length ct + TAG_LEN - TAG_LEN) with (length ct) by lia.
  rewrite take_app_length, drop_app_length.
  rewrite decide_True by done.
  unfold ct. by rewrite xor_stream_involutive.
Qed.

(** C1: for every payload, with or without a password and whatever nonce
    is drawn, decoding the token [encode] returns, with the same password,
    gives the payload back. *)
Theorem decode_encode_roundtrip (payload : TokenPayload.t)
    (password : option string) (e : Entropy) :
  decode derive_key keystream mac
    (encode derive_key keystream mac payload password e).1 password
  = inr payload.
Proof.
  unfold decode, encode. destruct password as [pw|].
  - pose proof (decrypt_encrypt (mkEncryptionHandler pw) (serialize payload) e)
      as Hd.
    destruct (encrypt _ _ _ _ _ e) as [blob e']. simpl in *.
    rewrite base64url_decode_encode, Hd.
    unfold parse_payload. by rewrite parse_serialize.
  - simpl. rewrite base64url_decode_encode.
    unfold parse_payload. by rewrite parse_serialize.
Qed.

End codec_facts.

Lemma demo_mac_length (k data : list byte) : length (demo_mac k data) = TAG_LEN.
Proof. unfold demo_mac. by rewrite length_fmap, length_seq. Qed.

Lemma decode_encode_roundtrip_witness :
  decode demo_derive_key demo_keystream demo_mac
    (encode demo_derive_key demo_keystream demo_mac demo_payload
       (Some "shared") demo_entropy).1 (Some "shared") = inr demo_payload
  ∧ decode demo_derive_key demo_keystream demo_mac
      (encode demo_derive_key demo_keystream demo_mac demo_payload
         None demo_entropy).1 None = inr demo_payload.
Proof.
  split.
  - exact (decode_encode_roundtrip demo_derive_key demo_keystream demo_mac
             demo_mac_length demo_payload (Some "shared") demo_entropy).
  - exact (decode_encode_roundtrip demo_derive_key demo_keystream demo_mac
             demo_mac_length demo_payload None demo_entropy).
Defined.

(** * The path middlewares *)

(** ** Python string operations *)

Lemma is_slash_true c : is_slash c = true → c = "/"%char.
Proof. unfold is_slash. by intros ?%bool_decide_eq_true. Qed.

Lemma prefix_slash_cons (p s : string) (c : ascii) :
  String.prefix (String "/" p) (String c s) = is_slash c && String.prefix p s.
Proof.
  unfold is_slash.
  change (String.prefix (String "/" p) (String c s))
    with (if ascii_dec "/" c then String.prefix p s else false).
  destruct (ascii_dec "/" c) as [<-|Hne].
  - by rewrite bool_decide_true.
  - by rewrite bool_decide_false by congruence.
Qed.

Lemma prefix_slash (s : string) :
  String.prefix "/" s = bool_decide (1 ≤ count_slashes s).
Proof.
  destruct s as [|c s]; [done|]. rewrite prefix_slash_cons. simpl.
  destruct (is_slash c); simpl; [|done]. by destruct s.
Qed.

Lemma count_lstrip (s : string) : count_slashes (lstrip_slashes s) = 0.
Proof. induction s as [|c s IH]; [done|]. simpl. destruct (is_slash c) eqn:E; [done|]. simpl. by rewrite E. Qed.

Lemma squeeze_run (s : string) :
  1 ≤ count_slashes s →
  squeeze_slashes s = String "/" (squeeze_slashes (lstrip_slashes s)).
Proof.
  induction s as [|c s IH]; simpl; [lia|].
  destruct (is_slash c) eqn:Hc; simpl; [|lia]. intros _.
  apply is_slash_true in Hc as ->.
  destruct (decide (1 ≤ count_slashes s)) as [Hs|Hs].
  - rewrite bool_decide_true by done. by apply IH.
  - rewrite bool_decide_false by done. f_equal.
    destruct s as [|c' s]; [done|]. simpl in Hs |- *.
    destruct (is_slash c') eqn:Hc'; [lia|]. simpl. by rewrite Hc'.
Qed.

Lemma re_sub_slash_runs_squeeze (s : string) :
  re_sub_slash_runs s = squeeze_slashes s.
Proof.
  funelim (re_sub_slash_runs s); [done| |].
  - rewrite squeeze_run by lia. f_equal.
    by match goal with IH : re_sub_slash_runs _ = squeeze_slashes _ |- _ => apply IH end.
  - match goal with IH : re_sub_slash_runs _ = squeeze_slashes _ |- _ => rewrite IH end.
    cbn [squeeze_slashes]. clear Heq Heqcall.
    assert (¬ (is_slash c = true ∧ 1 ≤ count_slashes rest)) as Hno.
    { intros [Hc Hr]. simpl in n. rewrite Hc in n. lia. }
    destruct (is_slash c); simpl; [|done].
    rewrite bool_decide_false; [done|]. intros ?. by apply Hno.
Qed.

Lemma squeeze_starts (s : string) :
  count_slashes (squeeze_slashes s) = Nat.min 1 (count_slashes s).
Proof.
  induction s as [|c s IH]; [done|]. simpl.
  destruct (is_slash c) eqn:Hc; simpl; [|by rewrite Hc].
  destruct (decide (1 ≤ count_slashes s)) as [Hs|Hs].
  - rewrite bool_decide_true by done. rewrite IH. lia.
  - rewrite bool_decide_false by done. simpl. rewrite Hc, IH. lia.
Qed.

Lemma contains_double_slash_cons (c : ascii) (s : string) :
  str_contains "//" (String c s)
  = is_slash c && bool_decide (1 ≤ count_slashes s) || str_contains "//" s.
Proof.
  cbn [str_contains]. by rewrite prefix_slash_cons, prefix_slash.
Qed.

Lemma squeeze_no_double_slash (s : string) :
  str_contains "//" (squeeze_slashes s) = false.
Proof.
  induction s as [|c s IH]; [done|]. cbn [squeeze_slashes].
  destruct (is_slash c && bool_decide (1 ≤ count_slashes s)) eqn:E; [done|].
  rewrite contains_double_slash_cons, IH, squeeze_starts, orb_false_r.
  destruct (is_slash c); simpl in *; [|done].
  apply bool_decide_eq_false in E. destruct (count_slashes s); [done|lia].
Qed.

Lemma squeeze_fixed (s : string) :
  str_contains "//" s = false → squeeze_slashes s = s.
Proof.
  induction s as [|c s IH]; [done|].
  rewrite contains_double_slash_cons. intros [E Hs]%orb_false_elim.
  cbn [squeeze_slashes]. rewrite E. f_equal. by apply IH.
Qed.

Lemma squeeze_length (s : string) :
  String.length (squeeze_slashes s) ≤ String.length s
  ∧ (str_contains "//" s = true → String.length (squeeze_slashes s) < String.length s).
Proof.
  induction s as [|c s [IH1 IH2]]; [done|].
  rewrite contains_double_slash_cons. cbn [squeeze_slashes].
  destruct (is_slash c && bool_decide (1 ≤ count_slashes s)); simpl; [lia|].
  split; [lia|]. intros H. specialize (IH2 H). lia.
Qed.

Lemma squeeze_segments (s : string) : segments (squeeze_slashes s) = segments s.
Proof.
  induction s as [|c s IH]; [done|]. cbn [squeeze_slashes segments].
  destruct (is_slash c) eqn:Hc; simpl.
  - destruct (bool_decide (1 ≤ count_slashes s)); [done|]. simpl. by rewrite Hc.
  - rewrite Hc, IH.
    rewrite (bool_decide_ext (1 ≤ count_slashes (squeeze_slashes s))
               (1 ≤ count_slashes s)); [done|].
    rewrite squeeze_starts. lia.
Qed.

Lemma append_cons (c : ascii) (a b : string) :
  String c a +:+ b = String c (a +:+ b).
Proof. done. Qed.

Lemma string_length_app (a b : string) :
  String.length (a +:+ b) = String.length a + String.length b.
Proof. induction a as [|c a IH]; simpl; [done|]. by rewrite IH. Qed.

Lemma string_drop_length (n : nat) (s : string) :
  String.length (string_drop n s) = String.length s - n.
Proof. revert s. induction n as [|n IH]; intros [|c s]; simpl; done. Qed.

Lemma prefix_split (p s : string) :
  String.prefix p s = true → s = p +:+ string_drop (String.length p) s.
Proof.
  revert s. induction p as [|a p IH]; intros s Hp; [by destruct s|].
  destruct s as [|c s]; [done|]. simpl in Hp.
  destruct (ascii_dec a c) as [->|]; [|done].
  cbn [String.length string_drop]. rewrite append_cons. f_equal. by apply IH.
Qed.

Lemma prefix_app (p t : string) : String.prefix p (p +:+ t) = true.
Proof.
  induction p as [|a p IH]; [by destruct t|].
  rewrite append_cons. cbn [String.prefix]. by destruct (ascii_dec a a).
Qed.

Lemma string_drop_app (p t : string) : string_drop (String.length p) (p +:+ t) = t.
Proof. induction p as [|a p IH]; [by destruct t|]. by rewrite append_cons. Qed.

Lemma re_sub_leading_at_most_one (s : string) :
  count_slashes (re_sub_leading_slashes s) ≤ 1.
Proof.
  unfold re_sub_leading_slashes. destruct (decide _) as [H|H]; [|lia].
  simpl. rewrite count_lstrip. done.
Qed.

Lemma re_sub_leading_proxy (rest : string) :
  re_sub_leading_slashes ("//proxy" +:+ rest) = "/proxy" +:+ rest.
Proof. done. Qed.

Lemma squeeze_leading (s : string) :
  squeeze_slashes (re_sub_leading_slashes s) = squeeze_slashes s
  ∧ re_sub_leading_slashes (squeeze_slashes s) = squeeze_slashes s.
Proof.
  unfold re_sub_leading_slashes. split.
  - destruct (decide (1 ≤ count_slashes s)) as [H|H]; [|done].
    rewrite (squeeze_run s H). cbn [squeeze_slashes]. simpl.
    by rewrite count_lstrip.
  - destruct (decide (1 ≤ count_slashes (squeeze_slashes s))) as [H|H]; [|done].
    rewrite squeeze_starts in H.
    rewrite (squeeze_run s) by lia. simpl.
    f_equal. destruct (lstrip_slashes s) as [|c t] eqn:E; [done|].
    pose proof (count_lstrip s) as Hc. rewrite E in Hc. simpl in Hc.
    cbn [squeeze_slashes]. destruct (is_slash c) eqn:Hs; [done|]. simpl. by rewrite Hs.
Qed.

Lemma replace_nonempty_cons (o : ascii) (old new : string) (c : ascii) (rest : string) :
  replace_nonempty o old new (String c rest)
  = if String.prefix (String o old) (String c rest)
    then new +:+ replace_nonempty o old new (string_drop (String.length old) rest)
    else String c (replace_nonempty o old new rest).
Proof. simp replace_nonempty. by destruct (String.prefix _ _). Qed.

Lemma str_contains_cons (sub : string) (c : ascii) (rest : string) :
  str_contains sub (String c rest)
  = String.prefix sub (String c rest) || str_contains sub rest.
Proof. done. Qed.

Lemma replace_absent (o : ascii) (old new s : string) :
  str_contains (String o old) s = false → replace_nonempty o old new s = s.
Proof.
  induction s as [|c s IH]; [done|].
  rewrite str_contains_cons. intros [Hp Hs]%orb_false_elim.
  rewrite replace_nonempty_cons, Hp. f_equal. by apply IH.
Qed.

Lemma replace_length (o : ascii) (old new s : string) :
  String.length new ≤ S (String.length old) →
  String.length (replace_nonempty o old new s) ≤ String.length s
  ∧ (String.length new < S (String.length old) →
     str_contains (String o old) s = true →
     String.length (replace_nonempty o old new s) < String.length s).
Proof.
  intros Hnew. remember (String.length s) as n eqn:Hn. revert s Hn.
  induction n as [n IH] using lt_wf_ind. intros [|c rest] ->; [done|].
  rewrite replace_nonempty_cons, str_contains_cons.
  destruct (String.prefix (String o old) (String c rest)) eqn:Hp.
  - apply prefix_split in Hp. apply (f_equal String.length) in Hp.
    rewrite string_length_app in Hp. cbn [String.length string_drop] in Hp.
    rewrite string_drop_length in Hp.
    destruct (IH (String.length (string_drop (String.length old) rest))
                ltac:(rewrite string_drop_length; simpl; lia) _ eq_refl)
      as [IH1 _].
    rewrite string_length_app. rewrite string_drop_length in IH1.
    cbn [String.length]. split; [lia|]. intros; lia.
  - destruct (IH (String.length rest) ltac:(simpl; lia) rest eq_refl) as [IH1 IH2].
    cbn [String.length]. split; [lia|]. intros Hlt Hc.
    specialize (IH2 Hlt Hc). lia.
Qed.

Lemma replace_first (o : ascii) (old new pre post : string) :
  (∀ i, i < String.length pre →
     String.prefix (String o old) (string_drop i (pre +:+ String o old +:+ post)) = false) →
  replace_nonempty o old new (pre +:+ String o old +:+ post)
  = pre +:+ new +:+ replace_nonempty o old new post.
Proof.
  induction pre as [|c pre IH]; intros Hfirst.
  - change ("" +:+ String o old +:+ post) with (String o (old +:+ post)).
    rewrite replace_nonempty_cons.
    change (String o (old +:+ post)) with (String o old +:+ post).
    rewrite prefix_app.
    change (String o old +:+ post) with (String o (old +:+ post)).
    by rewrite string_drop_app.
  - rewrite (append_cons c pre), (append_cons c pre), replace_nonempty_cons.
    pose proof (Hfirst 0 ltac:(simpl; lia)) as H0.
    rewrite (append_cons c pre) in H0. cbn [string_drop] in H0.
    rewrite H0. f_equal. apply IH.
    intros i Hi. apply (Hfirst (S i)). simpl. lia.
Qed.

(** ** The normalized path *)

(** X1: the path [re.sub(r"/{2,}", "/", path)] returns never contains two
    slashes in a row. *)
Theorem normalized_path_has_no_double_slash (path : string) :
  str_contains "//" (re_sub_slash_runs path) = false.
Proof. rewrite re_sub_slash_runs_squeeze. apply squeeze_no_double_slash. Qed.

(** X2: normalizing a normalized path changes nothing. *)
Theorem re_sub_slash_runs_idempotent (path : string) :
  re_sub_slash_runs (re_sub_slash_runs path) = re_sub_slash_runs path.
Proof.
  rewrite !re_sub_slash_runs_squeeze.
  apply squeeze_fixed, squeeze_no_double_slash.
Qed.

(** X3: the test [original_path != normalized_path] of
    [NormalizePathMiddleware] and the test ["//" in path] of
    [redirect_double_slash] agree: the substitution changes a path exactly
    when the path contains two slashes in a row, and then it makes the path
    shorter. *)
Theorem re_sub_slash_runs_changes_iff (path : string) :
  (re_sub_slash_runs path ≠ path ↔ str_contains "//" path = true)
  ∧ String.length (re_sub_slash_runs path) ≤ String.length path
  ∧ (str_contains "//" path = true →
     String.length (re_sub_slash_runs path) < String.length path).
Proof.
  rewrite re_sub_slash_runs_squeeze.
  destruct (squeeze_length path) as [Hle Hlt].
  split; [|done]. split.
  - intros Hne. destruct (str_contains "//" path) eqn:Hc; [done|].
    by apply squeeze_fixed in Hc.
  - intros Hc Heq. specialize (Hlt Hc). rewrite Heq in Hlt. lia.
Qed.

(** X4: the normalized path has the components of the original path, in the
    same order. *)
Theorem re_sub_slash_runs_segments (path : string) :
  segments (re_sub_slash_runs path) = segments path.
Proof. rewrite re_sub_slash_runs_squeeze. apply squeeze_segments. Qed.

(** X5: [re.sub(r"^/+", "/", raw_path)] leaves at most one slash at the
    start, so its result never starts with ["//proxy"]: a path that
    [force_fix_double_slash_path] has fixed is not fixed again. *)
Theorem fixed_path_not_fixed_again (raw_path : string) :
  count_slashes (re_sub_leading_slashes raw_path) ≤ 1
  ∧ String.prefix "//proxy" (re_sub_leading_slashes raw_path) = false.
Proof.
  pose proof (re_sub_leading_at_most_one raw_path) as Hone.
  split; [done|].
  destruct (re_sub_leading_slashes raw_path) as [|c [|c' t]]; [done| |].
  - rewrite prefix_slash_cons. by rewrite andb_false_r.
  - rewrite !prefix_slash_cons. simpl in Hone.
    destruct (is_slash c); [|done]. destruct (is_slash c'); [lia|done].
Qed.

(** X6: collapsing the leading slashes and then every run of slashes, in
    either order, gives what collapsing every run gives. *)
Theorem leading_and_runs_compose (path : string) :
  re_sub_slash_runs (re_sub_leading_slashes path) = re_sub_slash_runs path
  ∧ re_sub_leading_slashes (re_sub_slash_runs path) = re_sub_slash_runs path.
Proof. rewrite !re_sub_slash_runs_squeeze. apply squeeze_leading. Qed.

(** ** [NormalizePathMiddleware] *)

(** X7: for a scope with a path, [dispatch] calls the next handler with a
    request over a scope that is the original scope with the path
    normalized, with the same receive channel; no dict that was alive is
    changed (the scope it writes to is a copy), and a request whose path
    has no repeated slashes is handed on as it is. *)
Theorem dispatch_downstream_request {Ext} (request : Request.t)
    (call_next : Request.t → M Ext Response) (w : World Ext) (p : string) :
  deref w (Request.scope request) !! "path" = Some p →
  ∃ request' w',
    NormalizePathMiddleware.dispatch request call_next w = call_next request' w'
    ∧ ext w' = ext w
    ∧ Request.receive request' = Request.receive request
    ∧ deref w' (Request.scope request')
      = <["path" := re_sub_slash_runs p]> (deref w (Request.scope request))
    ∧ (∀ l, is_Some (heap w !! l) → heap w' !! l = heap w !! l)
    ∧ (str_contains "//" p = false → request' = request).
Proof.
  intros Hp.
  assert (is_Some (heap w !! Request.scope request)) as Hlive.
  { unfold deref in Hp. destruct (heap w !! Request.scope request); [done|].
    simpl in Hp. by rewrite lookup_empty in Hp. }
  assert (∀ l, is_Some (heap w !! l) → l ≠ fresh (dom (heap w))) as Hfresh.
  { intros l Hl ->. apply (is_fresh (dom (heap w))). by apply elem_of_dom. }
  unfold NormalizePathMiddleware.dispatch, bind, dict_copy, dict_getitem,
    dict_setitem. cbv beta iota zeta.
  rewrite deref_set_heap_insert, Hp.
  destruct (decide (p = re_sub_slash_runs p)) as [Heq|Hne].
  - rewrite bool_decide_false by (intros ?; done).
    eexists request, _. split; [done|]. split; [done|]. split; [done|].
    split; [|split; [|done]].
    + rewrite <- Heq.
      rewrite (insert_id (deref w (Request.scope request)) "path" p Hp).
      unfold deref, set_heap; simpl.
      by rewrite lookup_insert_ne by (symmetry; by apply Hfresh).
    + intros l Hl. unfold set_heap; simpl.
      by rewrite lookup_insert_ne by (symmetry; by apply Hfresh).
  - rewrite bool_decide_true by done.
    eexists (Request.mk _ _), _. split; [done|]. split; [done|].
    split; [done|]. split; [|split].
    + cbn [Request.scope]. by rewrite !deref_set_heap_insert.
    + intros l Hl. unfold set_heap; simpl.
      by rewrite !lookup_insert_ne by (symmetry; by apply Hfresh).
    + intros Hc. apply squeeze_fixed in Hc.
      rewrite re_sub_slash_runs_squeeze in Hne. congruence.
Qed.

(** ** [redirect_double_slash] *)

Lemma string_app_assoc (a b c : string) : (a +:+ b) +:+ c = a +:+ b +:+ c.
Proof. induction a as [|x a IH]; [done|]. by rewrite !append_cons, IH. Qed.

Lemma no_slash_no_start (o : ascii) (old pre t : string) (i : nat) :
  is_slash o = true →
  str_contains "/" pre = false →
  i < String.length pre →
  String.prefix (String o old) (string_drop i (pre +:+ t)) = false.
Proof.
  intros Ho%is_slash_true. subst o. revert i.
  induction pre as [|c pre IH]; intros i Hpre Hi; [simpl in Hi; lia|].
  rewrite str_contains_cons in Hpre. apply orb_false_elim in Hpre as [Hc Hrest].
  rewrite prefix_slash_cons in Hc.
  rewrite append_cons. destruct i as [|i]; cbn [string_drop].
  - rewrite prefix_slash_cons. destruct (is_slash c); [|done].
    simpl in Hc. by destruct pre.
  - apply IH; [done | simpl in Hi; lia].
Qed.

Lemma no_slash_app_colon (s : string) :
  str_contains "/" s = false → str_contains "/" (s +:+ ":") = false.
Proof.
  induction s as [|c s IH]; [done|].
  rewrite append_cons, !str_contains_cons, !prefix_slash_cons.
  intros [Hc Hs]%orb_false_elim. rewrite (IH Hs), orb_false_r.
  destruct (is_slash c); [|done]. simpl in Hc. by destruct s.
Qed.

Section redirect_facts.
Context {Ext : Type}.
Variable request_url : Request.t → World Ext → URL.t.
Variable request : Request.t.
Variable call_next : Request.t → M Ext Response.
Variable w : World Ext.

Lemma redirect_double_slash_redirects :
  str_contains "//" (URL.path (request_url request w)) = true →
  redirect_double_slash request_url request call_next w
  = (inr (RedirectResponse
            (str_replace (URL.path (request_url request w))
               (re_sub_slash_runs (URL.path (request_url request w)))
               (URL.text (request_url request w))) 307), w).
Proof.
  intros Hc. unfold redirect_double_slash, bind, get_url, ret.
  cbv beta iota zeta. by rewrite Hc.
Qed.

(** X8: when the path has repeated slashes, [redirect_double_slash]
    answers with a 307 redirect without calling the next handler, and the
    target is the URL it was asked for, unchanged, exactly when the path
    does not occur in the text of the URL. *)
Theorem redirect_target_same_url_iff :
  str_contains "//" (URL.path (request_url request w)) = true →
  ∃ target,
    redirect_double_slash request_url request call_next w
    = (inr (RedirectResponse target 307), w)
    ∧ (target = URL.text (request_url request w)
       ↔ str_contains (URL.path (request_url request w))
           (URL.text (request_url request w)) = false).
Proof.
  intros Hc. eexists. split; [by apply redirect_double_slash_redirects|].
  destruct (squeeze_length (URL.path (request_url request w))) as [_ Hshort].
  specialize (Hshort Hc). rewrite <- re_sub_slash_runs_squeeze in Hshort.
  destruct (URL.path (request_url request w)) as [|o old] eqn:Hpath; [done|].
  cbn [str_replace]. split.
  - intros Hsame.
    destruct (str_contains (String o old) (URL.text (request_url request w)))
      eqn:Hocc; [|done].
    destruct (replace_length o old (re_sub_slash_runs (String o old))
                (URL.text (request_url request w))) as [_ Hlt];
      [simpl in Hshort |- *; lia|].
    specialize (Hlt Hshort Hocc). rewrite Hsame in Hlt. lia.
  - apply replace_absent.
Qed.

(** X9: when the text of the URL is [pre ++ path ++ post], the path occurs
    nowhere before that place and not in [post], the target of the
    redirect is [pre ++ normalized path ++ post]. *)
Theorem redirect_target_normalizes_path (pre post : string) :
  str_contains "//" (URL.path (request_url request w)) = true →
  URL.text (request_url request w)
    = pre +:+ URL.path (request_url request w) +:+ post →
  (∀ i, i < String.length pre →
     String.prefix (URL.path (request_url request w))
       (string_drop i (URL.text (request_url request w))) = false) →
  str_contains (URL.path (request_url request w)) post = false →
  redirect_double_slash request_url request call_next w
  = (inr (RedirectResponse
            (pre +:+ re_sub_slash_runs (URL.path (request_url request w))
                 +:+ post) 307), w).
Proof.
  intros Hc Htext Hfirst Hpost.
  rewrite redirect_double_slash_redirects by done. do 3 f_equal.
  rewrite Htext in Hfirst |- *.
  destruct (URL.path (request_url request w)) as [|o old]; [done|].
  cbn [str_replace]. rewrite replace_first by done.
  by rewrite (replace_absent o old _ post).
Qed.

(** X10: for the path ["//"], the separator after the scheme is an
    occurrence of the path too: a URL [scheme://rest] is redirected to
    [scheme:/...]. *)
Theorem redirect_target_loses_scheme_separator (scheme rest : string) :
  URL.path (request_url request w) = "//" →
  URL.text (request_url request w) = scheme +:+ "://" +:+ rest →
  str_contains "/" scheme = false →
  redirect_double_slash request_url request call_next w
  = (inr (RedirectResponse
            (scheme +:+ ":/" +:+ str_replace "//" "/" rest) 307), w).
Proof.
  intros Hpath Htext Hscheme.
  rewrite redirect_double_slash_redirects by (by rewrite Hpath).
  rewrite Hpath, Htext. do 3 f_equal.
  change (scheme +:+ "://" +:+ rest)
    with (scheme +:+ ":" +:+ ("//" +:+ rest)).
  rewrite <- string_app_assoc.
  change (re_sub_slash_runs "//") with "/".
  cbn [str_replace]. rewrite replace_first.
  - by rewrite string_app_assoc.
  - intros i Hi. apply no_slash_no_start; [done| |done].
    by apply no_slash_app_colon.
Qed.

End redirect_facts.

Lemma dispatch_downstream_request_witness :
  deref (mkWorld demo_scope_heap 0) (Request.scope demo_request) !! "path"
  = Some "/a//b"
  ∧ ∃ request' w',
      NormalizePathMiddleware.dispatch demo_request demo_app
        (mkWorld demo_scope_heap 0) = demo_app request' w'
      ∧ deref w' (Request.scope request') !! "path" = Some "/a/b".
Proof.
  split; [reflexivity|].
  destruct (dispatch_downstream_request demo_request demo_app
              (mkWorld demo_scope_heap 0) "/a//b" eq_refl)
    as (request' & w' & Hcall & _ & _ & Hscope & _).
  exists request', w'. split; [exact Hcall|].
  rewrite Hscope. apply lookup_insert_eq.
Defined.

Lemma redirect_target_same_url_iff_witness :
  str_contains "//"
    (URL.path (demo_request_url demo_request (mkWorld demo_scope_heap 0))) = true
  ∧ ∃ target,
      redirect_double_slash demo_request_url demo_request demo_app
        (mkWorld demo_scope_heap 0)
      = (inr (RedirectResponse target 307), mkWorld demo_scope_heap 0).
Proof.
  split; [reflexivity|].
  destruct (redirect_target_same_url_iff demo_request_url demo_request demo_app
              (mkWorld demo_scope_heap 0) eq_refl) as (target & Hr & _).
  exists target. exact Hr.
Defined.

Lemma redirect_target_normalizes_path_witness :
  redirect_double_slash demo_request_url demo_request demo_app
    (mkWorld demo_scope_heap 0)
  = (inr (RedirectResponse "http://h/a/b?x=1" 307), mkWorld demo_scope_heap 0).
Proof.
  apply (redirect_target_normalizes_path demo_request_url demo_request demo_app
           (mkWorld demo_scope_heap 0) "http://h" "?x=1").
  - reflexivity.
  - reflexivity.
  - intros i Hi. do 8 (destruct i as [|i]; [vm_compute; reflexivity|]).
    simpl in Hi. lia.
  - reflexivity.
Defined.

Lemma redirect_target_loses_scheme_separator_witness :
  redirect_double_slash (λ _ _, URL.mk "//" "http://h//") demo_request demo_app
    (mkWorld demo_scope_heap 0)
  = (inr (RedirectResponse "http:/h/" 307), mkWorld demo_scope_heap 0).
Proof.
  apply (redirect_target_loses_scheme_separator (λ _ _, URL.mk "//" "http://h//")
           demo_request demo_app (mkWorld demo_scope_heap 0) "http" "h//").
  - reflexivity.
  - reflexivity.
  - reflexivity.
Defined.

(** ** [force_fix_double_slash_path] *)

(** X11: for a scope path [//proxy...], [force_fix_double_slash_path]
    prints one line and answers with a 307 redirect, without calling the
    next handler; the path it redirects to is the scope path without its
    first slash, repeated slashes further on included.  Every other path,
    one with three leading slashes too, goes to the next handler. *)
Theorem force_fix_redirects_proxy {Ext}
    (request_url : Request.t → World Ext → URL.t)
    (print : string → M Ext unit) (request : Request.t)
    (call_next : Request.t → M Ext Response) (w : World Ext)
    (raw_path : string) :
  deref w (Request.scope request) !! "path" = Some raw_path →
  (∀ rest, raw_path = "//proxy" +:+ rest →
     force_fix_double_slash_path request_url print request call_next w
     = (print ("Redirecting " +:+ raw_path +:+ " → " +:+ "/proxy" +:+ rest);;;
        ret (RedirectResponse
               (str_replace raw_path ("/proxy" +:+ rest)
                  (URL.text (request_url request w))) 307)) w)
  ∧ (String.prefix "//proxy" raw_path = false →
     force_fix_double_slash_path request_url print request call_next w
     = call_next request w)
  ∧ (∀ tail, String.prefix "//proxy" ("///proxy" +:+ tail) = false).
Proof.
  intros Hp. split; [|split; [|done]].
  - intros rest ->.
    unfold force_fix_double_slash_path, bind at 1, dict_getitem.
    rewrite Hp. rewrite prefix_app.
    change (re_sub_leading_slashes ("//proxy" +:+ rest)) with ("/proxy" +:+ rest).
    done.
  - intros Hno. unfold force_fix_double_slash_path, bind, dict_getitem.
    by rewrite Hp, Hno.
Qed.

Lemma force_fix_redirects_proxy_witness :
  deref (mkWorld demo_scope_heap 0) (Request.scope demo_proxy_request) !! "path"
  = Some "//proxy//x"
  ∧ force_fix_double_slash_path demo_request_url demo_print demo_proxy_request
      demo_app (mkWorld demo_scope_heap 0)
    = (inr (RedirectResponse "http://h/proxy//x?x=1" 307),
       mkWorld demo_scope_heap 1).
Proof.
  split; [reflexivity|].
  destruct (force_fix_redirects_proxy demo_request_url demo_print
              demo_proxy_request demo_app (mkWorld demo_scope_heap 0)
              "//proxy//x" eq_refl) as [Hredirect _].
  rewrite (Hredirect "//x" eq_refl). reflexivity.
Defined.

(** ** [NormalizePathMiddleware] behind [redirect_double_slash] *)

(** X12: when the path of the URL is the path of the scope, and
    [redirect_double_slash] hands on to [NormalizePathMiddleware], the
    latter never rewrites anything: a path with repeated slashes is
    answered by the redirect before it gets there, and any other request
    reaches the next handler as it came, in a store that has one more dict
    (the copy of the scope) and is otherwise the same. *)
Theorem normalize_behind_redirect {Ext}
    (request_url : Request.t → World Ext → URL.t) (request : Request.t)
    (call_next : Request.t → M Ext Response) (w : World Ext) (p : string) :
  deref w (Request.scope request) !! "path" = Some p →
  URL.path (request_url request w) = p →
  redirect_double_slash request_url request
    (λ r, NormalizePathMiddleware.dispatch r call_next) w
  = if str_contains "//" p
    then (inr (RedirectResponse
                 (str_replace p (re_sub_slash_runs p)
                    (URL.text (request_url request w))) 307), w)
    else call_next request
           (set_heap (<[fresh (dom (heap w)) := deref w (Request.scope request)]>
                        (heap w)) w).
Proof.
  intros Hp Hurl. destruct (str_contains "//" p) eqn:Hc.
  - rewrite redirect_double_slash_redirects by (by rewrite Hurl).
    by rewrite Hurl.
  - unfold redirect_double_slash, bind at 1, get_url.
    cbv beta iota zeta. rewrite Hurl, Hc.
    unfold NormalizePathMiddleware.dispatch, bind, dict_copy, dict_getitem.
    cbv beta iota zeta. rewrite deref_set_heap_insert, Hp.
    apply squeeze_fixed in Hc. rewrite re_sub_slash_runs_squeeze, Hc.
    by rewrite bool_decide_false by (intros ?; done).
Qed.

Lemma normalize_behind_redirect_witness :
  deref (mkWorld demo_scope_heap 0) (Request.scope demo_request) !! "path"
  = Some "/a//b"
  ∧ redirect_double_slash demo_request_url demo_request
      (λ r, NormalizePathMiddleware.dispatch r demo_app)
      (mkWorld demo_scope_heap 0)
    = (inr (RedirectResponse "http://h/a/b?x=1" 307), mkWorld demo_scope_heap 0).
Proof.
  split; [reflexivity|].
  rewrite (normalize_behind_redirect demo_request_url demo_request demo_app
             (mkWorld demo_scope_heap 0) "/a//b" eq_refl eq_refl).
  reflexivity.
Defined.

(** * More on the generation endpoints *)

Lemma gather_raises_inv {Ext A} (tasks : list (M Ext A)) (w : World Ext)
    (e : exception) :
  (gather tasks w).1 = inl e →
  ∃ i t, tasks !! i = Some t
         ∧ (t (world_before tasks i w)).1 = inl e
         ∧ ∀ j t', j < i → tasks !! j = Some t' →
             ∃ a, (t' (world_before tasks j w)).1 = inr a.
Proof.
  revert w. induction tasks as [|t0 tasks IH]; intros w Hg; [done|].
  rewrite gather_cons in Hg.
  destruct ((t0 w).1) as [e0|a] eqn:H0.
  - exists 0, t0. rewrite world_before_0.
    split; [done|]. split; [|intros; lia].
    destruct (gather tasks (t0 w).2); simpl in Hg. congruence.
  - destruct (gather tasks (t0 w).2) as [[e1|l] w'] eqn:Hrest; [|done].
    simpl in Hg. injection Hg as ->.
    destruct (IH (t0 w).2) as (i & t & Hi & He & Hbefore);
      [by rewrite Hrest|].
    exists (S i), t. rewrite world_before_S.
    split; [done|]. split; [done|].
    intros [|j] t' Hj Ht'; simpl in Ht'.
    + injection Ht' as <-. exists a. by rewrite world_before_0.
    + rewrite world_before_S. apply (Hbefore j t'); [lia | done].
Qed.

(** X13: an empty batch returns the body with an empty list and leaves the
    store as it was, whatever the encoder and the shared fields. *)
Theorem generate_urls_empty {Ext} (enc : EncodeArgs.t → M Ext string)
    (mediaflow_proxy_url : string) (api_password : option string)
    (expiration : option Z) (ip : option IPvAnyAddress) (w : World Ext) :
  generate_urls enc
    (GenerateMultiUrlRequest.mk mediaflow_proxy_url api_password expiration ip [])
    w
  = (inr {["urls" := VList []]}, w).
Proof. done. Qed.

(** X14: [generate_urls] raises only what the coroutine of one of its
    entries raised, and every entry before that one returned. *)
Theorem generate_urls_raises_only_from_entry {Ext}
    (enc : EncodeArgs.t → M Ext string) (request : GenerateMultiUrlRequest.t)
    (w : World Ext) (e : exception) :
  (generate_urls enc request w).1 = inl e →
  ∃ i url_item,
    GenerateMultiUrlRequest.urls request !! i = Some url_item
    ∧ (item_task enc request url_item
         (world_before (batch_tasks enc request) i w)).1 = inl e
    ∧ ∀ j earlier, j < i →
        GenerateMultiUrlRequest.urls request !! j = Some earlier →
        ∃ u, (item_task enc request earlier
                (world_before (batch_tasks enc request) j w)).1 = inr u.
Proof.
  rewrite generate_urls_result. intros Hg.
  destruct ((gather (batch_tasks enc request) w).1) as [e'|us] eqn:Hgather;
    [|done]. injection Hg as ->.
  destruct (gather_raises_inv _ _ _ Hgather) as (i & t & Hi & He & Hbefore).
  rewrite batch_tasks_lookup in Hi.
  apply fmap_Some in Hi as (url_item & Hitem & ->).
  exists i, url_item. split; [done|]. split; [done|].
  intros j earlier Hj Hearlier.
  apply (Hbefore j (item_task enc request earlier) Hj).
  by rewrite batch_tasks_lookup, Hearlier.
Qed.

Lemma generate_urls_raises_only_from_entry_witness :
  (generate_urls demo_encode (demo_batch demo_items_bad) (mkWorld demo_heap 0)).1
  = inl (Raised "destination_url must not be empty")
  ∧ ∃ i url_item,
      demo_items_bad !! i = Some url_item
      ∧ (item_task demo_encode (demo_batch demo_items_bad) url_item
           (world_before (batch_tasks demo_encode (demo_batch demo_items_bad))
              i (mkWorld demo_heap 0))).1
        = inl (Raised "destination_url must not be empty").
Proof.
  assert ((generate_urls demo_encode (demo_batch demo_items_bad)
             (mkWorld demo_heap 0)).1
          = inl (Raised "destination_url must not be empty")) as Hraise
    by (vm_compute; reflexivity).
  split; [exact Hraise|].
  destruct (generate_urls_raises_only_from_entry demo_encode
              (demo_batch demo_items_bad) (mkWorld demo_heap 0) _ Hraise)
    as (i & url_item & Hi & He & _).
  exists i, url_item. split; [exact Hi | exact He].
Defined.

(** X15: an empty shared password is no password: [generate_url] and
    [generate_urls] do on a request whose [api_password] is the empty
    string what they do on the same request without [api_password] (no
    handler, nothing added to the query parameters). *)
Theorem empty_password_is_no_password {Ext} (enc : EncodeArgs.t → M Ext string) :
  (∀ mediaflow_proxy_url endpoint destination_url query_params
     request_headers response_headers expiration ip filename w,
     generate_url enc
       (GenerateUrlRequest.mk mediaflow_proxy_url endpoint destination_url
          query_params request_headers response_headers expiration
          (Some "") ip filename) w
     = generate_url enc
         (GenerateUrlRequest.mk mediaflow_proxy_url endpoint destination_url
            query_params request_headers response_headers expiration
            None ip filename) w)
  ∧ (∀ mediaflow_proxy_url expiration ip urls w,
       generate_urls enc
         (GenerateMultiUrlRequest.mk mediaflow_proxy_url (Some "") expiration
            ip urls) w
       = generate_urls enc
           (GenerateMultiUrlRequest.mk mediaflow_proxy_url None expiration
              ip urls) w).
Proof.
  split.
  - intros. by rewrite !generate_url_call.
  - intros mediaflow_proxy_url expiration ip urls w.
    rewrite !generate_urls_gather. unfold bind, gather, batch_tasks.
    assert (∀ w0,
      run_tasks (map (item_task enc (GenerateMultiUrlRequest.mk
                        mediaflow_proxy_url (Some "") expiration ip urls)) urls) w0
      = run_tasks (map (item_task enc (GenerateMultiUrlRequest.mk
                          mediaflow_proxy_url None expiration ip urls)) urls) w0)
      as Hsame.
    { generalize urls at 2 4. intros items.
      induction items as [|it items IH]; intros w0; [done|].
      cbn [map run_tasks]. unfold item_task at 1 3.
      rewrite !_process_url_item_call. cbv zeta.
      change (prepared (GenerateMultiUrlRequest.api_password
                          (GenerateMultiUrlRequest.mk mediaflow_proxy_url
                             (Some "") expiration ip urls)))
        with (@prepared Ext None).
      cbn [GenerateMultiUrlRequest.api_password].
      change (handler_of (Some "")) with (handler_of None).
      destruct (enc _ _) as [r w1]. by rewrite IH. }
    cbn [GenerateMultiUrlRequest.urls]. by rewrite Hsame.
Qed.

(** X16: with an encoder that changes only the dicts it is handed, and
    query parameters that are live objects of their own, the query
    parameters the encoder receives for an entry are the ones the caller's
    dict held when the batch started, merged with the password: what the
    encoder did to the copies of earlier entries, of the same dict too, does
    not reach a later entry. *)
Theorem batch_entry_sees_original_params {Ext}
    (enc : EncodeArgs.t → M Ext string) (request : GenerateMultiUrlRequest.t)
    (w : World Ext) (i : nat) (url_item : MultiUrlRequestItem.t) :
  encoder_frame enc →
  (∀ it, it ∈ GenerateMultiUrlRequest.urls request →
     is_Some (heap w !! MultiUrlRequestItem.query_params it)) →
  (∀ it it', it ∈ GenerateMultiUrlRequest.urls request →
     it' ∈ GenerateMultiUrlRequest.urls request →
     MultiUrlRequestItem.query_params it
       ≠ MultiUrlRequestItem.request_headers it'
     ∧ MultiUrlRequestItem.query_params it
       ≠ MultiUrlRequestItem.response_headers it') →
  GenerateMultiUrlRequest.urls request !! i = Some url_item →
  let p := prepared (GenerateMultiUrlRequest.api_password request)
             (MultiUrlRequestItem.query_params url_item)
             (world_before (batch_tasks enc request) i w) in
  item_task enc request url_item (world_before (batch_tasks enc request) i w)
  = enc (item_args request
           (handler_of (GenerateMultiUrlRequest.api_password request))
           (str <$> GenerateMultiUrlRequest.ip request) url_item p.1) p.2
  ∧ deref p.2 p.1
    = inject_api_password (GenerateMultiUrlRequest.api_password request)
        (deref w (MultiUrlRequestItem.query_params url_item)).
Proof.
  intros Hframe Hlive Hsep Hi p.
  split; [apply _process_url_item_call|].
  subst p. rewrite deref_prepared. f_equal.
  assert (url_item ∈ GenerateMultiUrlRequest.urls request) as Hin
    by (by eapply list_elem_of_lookup_2).
  unfold deref, world_before, batch_tasks. rewrite firstn_map.
  rewrite (run_tasks_frame enc Hframe request
             (take i (GenerateMultiUrlRequest.urls request))
             (MultiUrlRequestItem.query_params url_item) w); [done|by apply Hlive|].
  intros it Hit. apply Hsep; [done|].
  apply list_elem_of_lookup in Hit as [j Hj].
  apply lookup_take_Some in Hj as [Hj _]. by eapply list_elem_of_lookup_2.
Qed.

Lemma batch_entry_sees_original_params_witness :
  demo_items_ok !! 2 = Some (demo_item "http://a/3" 1)
  ∧ ∃ qp w1,
      item_task demo_encode (demo_batch demo_items_ok) (demo_item "http://a/3" 1)
        (world_before (batch_tasks demo_encode (demo_batch demo_items_ok)) 2
           (mkWorld demo_heap 0))
      = demo_encode
          (item_args (demo_batch demo_items_ok)
             (Some (mkEncryptionHandler "shared")) (Some "1.2.3.4")
             (demo_item "http://a/3" 1) qp) w1
      ∧ deref w1 qp = <["api_password" := "shared"]> {["quality" := "hd"]}.
Proof.
  split; [reflexivity|].
  destruct (batch_entry_sees_original_params demo_encode
              (demo_batch demo_items_ok) (mkWorld demo_heap 0) 2
              (demo_item "http://a/3" 1) demo_encode_frame) as [Hcall Hqp].
  - intros it Hit. unfold demo_batch, demo_items_ok in Hit; simpl in Hit.
    decompose_list_elem_of; subst; vm_compute; eauto.
  - intros it it' Hit Hit'.
    unfold demo_batch, demo_items_ok in Hit, Hit'; simpl in Hit, Hit'.
    decompose_list_elem_of; subst; split; discriminate.
  - reflexivity.
  - eexists _, _. split; [exact Hcall|]. rewrite Hqp. reflexivity.
Defined.

(** X17: the two credential channels of [verify_api_key] are
    interchangeable: swapping the query credential and the header
    credential does not change the outcome. *)
Theorem verify_api_key_channels_swap (settings : Settings.t)
    (api_key api_key_alt : option string) :
  verify_api_key settings api_key api_key_alt
  = verify_api_key settings api_key_alt api_key.
Proof. unfold verify_api_key. by rewrite orb_comm. Qed.
